(** * Tic-tac-toe with move history (src/App.js)

    A shallow embedding of the game logic of [App.js]: the win evaluator
    [calculateWinner], the click handler of [Board], the three state
    transitions of [Game] ([handlePlay], [jumpTo], [toggleSortOrder]) and the
    values derived on each render (status line, highlighted squares, move
    list).  The React state of [Game] is an explicit record; every handler is
    a function on it. *)

From stdpp Require Import gmap strings list pretty.

Open Scope string_scope.
Open Scope list_scope.
Open Scope nat_scope.

(** ** Cells and JavaScript arrays *)

(** What a read [squares[i]] can produce.  [Null] is the initial filling
    [Array(9).fill(null)], [X] and [O] are the strings ['X'] and ['O'], and
    [Undefined] is the result of reading past the end of an array or reading
    a slot that was never written (a hole left by a write past the end). *)
Inductive cell := Null | Undefined | X | O.

#[global] Instance cell_eq_dec : EqDecision cell.
Proof. solve_decision. Defined.

(** JavaScript truthiness of a cell: [null] and [undefined] are falsy, the
    non-empty strings ['X'] and ['O'] are truthy. *)
Definition truthy (c : cell) : bool :=
  match c with
  | X | O => true
  | Null | Undefined => false
  end.

(** String conversion, as done by ['Winner: ' + winner.player]. *)
Definition cell_str (c : cell) : string :=
  match c with
  | X => "X"
  | O => "O"
  | Null => "null"
  | Undefined => "undefined"
  end.

(** [a[i]]: out of range reads give [undefined]. *)
Definition array_get (a : list cell) (i : nat) : cell :=
  default Undefined (a !! i).

(** The array indices of JavaScript are the integers from 0 to [2^32 - 2];
    the bound is kept in binary so that it can be evaluated. *)
Definition is_array_index (i : nat) : Prop := (N.of_nat i < 2 ^ 32 - 1)%N.

#[global] Instance is_array_index_dec i : Decision (is_array_index i).
Proof. unfold is_array_index. apply _. Defined.

(** [a[i] = v]: in range the slot is overwritten; past the end, at an array
    index, the array grows to length [i + 1] and the slots in between are
    holes.  From [2^32 - 1] on [i] is not an array index: the assignment
    creates a named property instead, the slots and the length stay as they
    are, and a later [slice()] does not copy the property.  Lists hold the
    slots only, so such a property (like one written at a negative or
    fractional index) is outside this model; whatever is stated about an
    index past the nine cells is stated for array indices. *)
Definition array_set (i : nat) (v : cell) (a : list cell) : list cell :=
  if decide (i < length a) then <[i:=v]> a
  else if decide (is_array_index i)
       then a ++ replicate (i - length a) Undefined ++ [v]
       else a.

(** [a.every(Boolean)]: holes are skipped by [every], every other slot must
    be truthy. *)
Definition every_Boolean (a : list cell) : bool :=
  forallb (λ c, match c with Undefined => true | _ => truthy c end) a.

(** ** Win evaluator *)

Record winner := { player : cell; line : list nat }.

#[global] Instance winner_eq_dec : EqDecision winner.
Proof. solve_decision. Defined.

Definition lines : list (nat * nat * nat) :=
  [ (0, 1, 2); (3, 4, 5); (6, 7, 8);
    (0, 3, 6); (1, 4, 7); (2, 5, 8);
    (0, 4, 8); (2, 4, 6) ].

(** The body of the [for] loop of [calculateWinner], run over the lines that
    are still to be visited. *)
Fixpoint calculateWinner_from (ls : list (nat * nat * nat))
    (squares : list cell) : option winner :=
  match ls with
  | [] => None
  | (a, b, c) :: rest =>
      if truthy (array_get squares a)
         && bool_decide (array_get squares a = array_get squares b)
         && bool_decide (array_get squares a = array_get squares c)
      then Some {| player := array_get squares a; line := [a; b; c] |}
      else calculateWinner_from rest squares
  end.

Definition calculateWinner (squares : list cell) : option winner :=
  calculateWinner_from lines squares.

(** ** Board: click handler and derived status *)

(** [handleClick i] of a [Board] rendered with props [xIsNext] and [squares].
    [None] is the early [return]; [Some (nextSquares, loc)] are the arguments
    handed to [onPlay]. *)
Definition handleClick (xIsNext : bool) (squares : list cell) (i : nat)
    : option (list cell * string) :=
  if bool_decide (is_Some (calculateWinner squares))
     || truthy (array_get squares i)
  then None
  else
    let nextSquares := squares in
    let row := i / 3 + 1 in
    let col := i mod 3 + 1 in
    let nextSquares :=
      if xIsNext then array_set i X nextSquares
      else array_set i O nextSquares in
    Some (nextSquares, "(" +:+ pretty col +:+ ", " +:+ pretty row +:+ ")").

Definition status (xIsNext : bool) (squares : list cell) : string :=
  match calculateWinner squares with
  | Some w => "Winner: " +:+ cell_str (player w)
  | None =>
      if every_Boolean squares then "Draw"
      else "Next player: " +:+ (if xIsNext then "X" else "O")
  end.

Definition winningSquares (squares : list cell) : list nat :=
  match calculateWinner squares with
  | Some w => line w
  | None => []
  end.

(** ** Game: state and transitions *)

Record entry := { squares : list cell; location : string }.

Record state := {
  history : list entry;
  currentMove : nat;
  isAscending : bool
}.

#[global] Instance entry_eq_dec : EqDecision entry.
Proof. solve_decision. Defined.

#[global] Instance state_eq_dec : EqDecision state.
Proof. solve_decision. Defined.

(** The three [useState] initial values. *)
Definition initial_entry : entry :=
  {| squares := replicate 9 Null; location := "" |}.

Definition initial : state :=
  {| history := [initial_entry]; currentMove := 0; isAscending := true |}.

Definition xIsNext (st : state) : bool := Nat.even (currentMove st).

(** [history[currentMove].squares]; [None] when [history[currentMove]] is
    [undefined], in which case the property access throws a [TypeError] and
    the component does not render. *)
Definition currentSquares (st : state) : option (list cell) :=
  squares <$> history st !! currentMove st.

Definition handlePlay (nextSquares : list cell) (moveLocation : string)
    (st : state) : state :=
  let nextHistory :=
    take (currentMove st + 1) (history st)
      ++ [ {| squares := nextSquares; location := moveLocation |} ] in
  {| history := nextHistory;
     currentMove := length nextHistory - 1;
     isAscending := isAscending st |}.

Definition jumpTo (nextMove : nat) (st : state) : state :=
  {| history := history st;
     currentMove := nextMove;
     isAscending := isAscending st |}.

Definition toggleSortOrder (st : state) : state :=
  {| history := history st;
     currentMove := currentMove st;
     isAscending := negb (isAscending st) |}.

(** A click on square [i] of the rendered game: the [Board] is rendered with
    [xIsNext], [currentSquares] and [handlePlay], and its [handleClick] runs.
    The result is [None] exactly when the render itself throws. *)
Definition play (i : nat) (st : state) : option state :=
  sq ← currentSquares st;
  Some match handleClick (xIsNext st) sq i with
       | Some (nextSquares, loc) => handlePlay nextSquares loc st
       | None => st
       end.

(** Status line and highlighted squares of the rendered game. *)
Definition gameStatus (st : state) : option string :=
  status (xIsNext st) <$> currentSquares st.


(** ** Move list *)

(** One [<li>] of the move list: its key, whether its button carries the
    [bold] class, and its caption. *)
Record item := { key : nat; bold : bool; description : string }.

Definition moves (st : state) : list item :=
  imap (λ move step,
          {| key := move;
             bold := bool_decide (move = currentMove st);
             description :=
               match move with
               | 0 => "Go to game start"
               | _ => "Go to move #" +:+ pretty move
                        +:+ " (" +:+ location step +:+ ")"
               end |})
       (history st).

(** The children of the [<ol>]. *)
Definition displayedMoves (st : state) : list item :=
  if isAscending st then moves st else reverse (moves st).

(** ** Events *)

Inductive event :=
  | Click (i : nat)
  | Jump (nextMove : nat)
  | ToggleSort.

(** The effect of an event on the three state variables.  Whether the page
    is still mounted is not one of them: [jumpTo] and [toggleSortOrder] are
    given as the state updates they perform, also on a state that has no
    entry at the pointer, which the page cannot show and from which it
    delivers no further event.  The states [reachable] below all have an
    entry at the pointer. *)
Definition dispatch (e : event) (st : state) : option state :=
  match e with
  | Click i => play i st
  | Jump n => Some (jumpTo n st)
  | ToggleSort => Some (toggleSortOrder st)
  end.

Fixpoint run (es : list event) (st : state) : option state :=
  match es with
  | [] => Some st
  | e :: es' => st' ← dispatch e st; run es' st'
  end.

(** The events the rendered page can produce: squares are created for
    [row * 3 + col] with [row], [col] below 3, and one button per history
    index. *)
Definition offered (st : state) (e : event) : Prop :=
  match e with
  | Click i => i < 9
  | Jump n => n < length (history st)
  | ToggleSort => True
  end.

Inductive reachable : state → Prop :=
  | reachable_initial : reachable initial
  | reachable_step st e st' :
      reachable st → offered st e → dispatch e st = Some st' →
      reachable st'.

(** ** The same handlers over a store of arrays

    In [App.js] a board is an array object and a history entry holds a
    reference to it.  The model below keeps the arrays in a store and lets
    entries hold addresses, so that [squares.slice()] is an allocation and
    [nextSquares[i] = ...] is a write through a reference.  The functions that
    only read an array ([calculateWinner], [array_get]) are shared with the
    model above. *)

Module Heap.

Record entry := { squares : nat; location : string }.

Record state := {
  arrays : gmap nat (list cell);
  history : list entry;
  currentMove : nat;
  isAscending : bool
}.

Definition initial : state :=
  {| arrays := {[ 0 := replicate 9 Null ]};
     history := [ {| squares := 0; location := "" |} ];
     currentMove := 0;
     isAscending := true |}.

Definition xIsNext (st : state) : bool := Nat.even (currentMove st).

(** [handleClick i] with the prop [squares] a reference.  The result is the
    new store and, unless the handler returned early, the arguments of
    [onPlay].  [None] stands for a dangling reference, which JavaScript
    cannot produce. *)
Definition handleClick (xIsNext : bool) (squares : nat) (i : nat)
    (σ : gmap nat (list cell))
    : option (gmap nat (list cell) * option (nat * string)) :=
  a ← σ !! squares;
  if bool_decide (is_Some (calculateWinner a)) || truthy (array_get a i)
  then Some (σ, None)
  else
    let nextSquares := fresh (dom σ) in
    let σ := <[nextSquares := a]> σ in
    let row := i / 3 + 1 in
    let col := i mod 3 + 1 in
    let σ :=
      if xIsNext then alter (array_set i X) nextSquares σ
      else alter (array_set i O) nextSquares σ in
    Some (σ, Some (nextSquares,
                   "(" +:+ pretty col +:+ ", " +:+ pretty row +:+ ")")).

Definition handlePlay (nextSquares : nat) (moveLocation : string)
    (st : state) : state :=
  let nextHistory :=
    take (currentMove st + 1) (history st)
      ++ [ {| squares := nextSquares; location := moveLocation |} ] in
  {| arrays := arrays st;
     history := nextHistory;
     currentMove := length nextHistory - 1;
     isAscending := isAscending st |}.

Definition jumpTo (nextMove : nat) (st : state) : state :=
  {| arrays := arrays st;
     history := history st;
     currentMove := nextMove;
     isAscending := isAscending st |}.

Definition toggleSortOrder (st : state) : state :=
  {| arrays := arrays st;
     history := history st;
     currentMove := currentMove st;
     isAscending := negb (isAscending st) |}.

Definition with_arrays (σ : gmap nat (list cell)) (st : state) : state :=
  {| arrays := σ;
     history := history st;
     currentMove := currentMove st;
     isAscending := isAscending st |}.

Definition play (i : nat) (st : state) : option state :=
  en ← history st !! currentMove st;
  '(σ, call) ← handleClick (xIsNext st) (squares en) i (arrays st);
  Some match call with
       | Some (nextSquares, loc) =>
           handlePlay nextSquares loc (with_arrays σ st)
       | None => with_arrays σ st
       end.

Definition dispatch (e : event) (st : state) : option state :=
  match e with
  | Click i => play i st
  | Jump n => Some (jumpTo n st)
  | ToggleSort => Some (toggleSortOrder st)
  end.

Fixpoint run (es : list event) (st : state) : option state :=
  match es with
  | [] => Some st
  | e :: es' => st' ← dispatch e st; run es' st'
  end.

(** The store-based state reached from the initial one by a sequence of
    events. *)
Definition after (es : list event) : state := default initial (run es initial).

(** States of the store-based model that some sequence of events reaches;
    the index of a click or of a jump is not restricted. *)
Inductive reachable : state → Prop :=
  | reachable_initial : reachable initial
  | reachable_step st e st' :
      reachable st → dispatch e st = Some st' → reachable st'.

End Heap.

(** Reading a store-based state: every reference is replaced by the array it
    points to. *)
Definition resolve_entry (σ : gmap nat (list cell)) (en : Heap.entry)
    : option entry :=
  a ← σ !! Heap.squares en;
  Some {| squares := a; location := Heap.location en |}.

Definition resolve (st : Heap.state) : option state :=
  h ← mapM (resolve_entry (Heap.arrays st)) (Heap.history st);
  Some {| history := h;
          currentMove := Heap.currentMove st;
          isAscending := Heap.isAscending st |}.

(** ** Specification-side notions *)

Definition is_mark (c : cell) : Prop := c = X ∨ c = O.

(** The three cells of a triple are non-empty and equal. *)
Definition three_in_a_row (squares : list cell) (t : nat * nat * nat) : Prop :=
  let '(a, b, c) := t in
  ∃ m, is_mark m ∧
       squares !! a = Some m ∧ squares !! b = Some m ∧ squares !! c = Some m.

(** The board with mark [m] on the cells of [t] and every other cell empty. *)
Definition only_line (m : cell) (t : nat * nat * nat) : list cell :=
  let '(a, b, c) := t in
  <[a:=m]> (<[b:=m]> (<[c:=m]> (replicate 9 Null))).

(** The mark of the player who moves when the pointer is [k]. *)
Definition turn (k : nat) : cell := if Nat.even k then X else O.

(** The location caption computed by [handleClick] for square [i]. *)
Definition caption (i : nat) : string :=
  "(" +:+ pretty (i mod 3 + 1) +:+ ", " +:+ pretty (i / 3 + 1) +:+ ")".

(** The state reached from the initial one by a sequence of events. *)
Definition after (es : list event) : state := default initial (run es initial).

(** Number of cells of a board holding [c]. *)
Definition marks (c : cell) (sq : list cell) : nat :=
  length (filter (λ c', c' = c) sq).

(** Number of non-empty cells of a board. *)
Definition occupied (sq : list cell) : nat :=
  length (filter (λ c', c' ≠ Null) sq).

(** A board of the data model: nine cells, each [Null], [X] or [O]. *)
Definition board_ok (sq : list cell) : Prop :=
  length sq = 9 ∧ Undefined ∉ sq.

(** Consecutive history entries differ by one mark, placed on an empty cell
    by the player whose turn it was, and captioned with that cell. *)
Definition alternating (h : list entry) : Prop :=
  ∀ k e e', h !! k = Some e → h !! S k = Some e' →
    ∃ i, i < 9 ∧ squares e !! i = Some Null ∧
         squares e' = <[i:=turn k]> (squares e) ∧
         location e' = caption i.

(** The invariant of the states the page can reach. *)
Definition well_formed (st : state) : Prop :=
  currentMove st < length (history st) ∧
  history st !! 0 = Some initial_entry ∧
  (∀ k e, history st !! k = Some e → board_ok (squares e)) ∧
  alternating (history st).

(** ** Rendered board *)

(** The [<button>] a [Square] renders: its class attribute, the index its
    [onClick] passes to [handleClick], and its text. *)
Record button := { btn_class : string; btn_click : nat; btn_text : cell }.

Definition Square (value : cell) (onSquareClick : nat) (className : string)
    : button :=
  {| btn_class := "square " +:+ className;
     btn_click := onSquareClick;
     btn_text := value |}.

(** [renderSquare i] of a [Board] rendered with [squares];
    [winningSquares.includes(i)] is membership in the list. *)
Definition renderSquare (squares : list cell) (i : nat) : button :=
  Square (array_get squares i) i
         (if bool_decide (i ∈ winningSquares squares)
          then "winning-square" else "").

(** [createBoard]: the two nested [for] loops, each pushing onto its array. *)
Definition createBoard (squares : list cell) : list (list button) :=
  foldl (λ board row,
           board ++ [ foldl (λ boardRow col,
                               boardRow ++ [renderSquare squares (row * 3 + col)])
                            [] (seq 0 3) ])
        [] (seq 0 3).

(** ** Further specification-side notions *)

(** Exchanging the two marks. *)
Definition swap (c : cell) : cell :=
  match c with
  | X => O
  | O => X
  | Null => Null
  | Undefined => Undefined
  end.

Definition swap_winner (w : winner) : winner :=
  {| player := swap (player w); line := line w |}.

(** No snapshot but the last one has a winner. *)
Definition open_prefix (h : list entry) : Prop :=
  ∀ k e, h !! k = Some e → S k < length h →
         calculateWinner (squares e) = None.

(** * Win evaluator *)

Section win_evaluator.
Implicit Types (squares : list cell) (t : nat * nat * nat).

Lemma truthy_is_mark c : truthy c = true ↔ is_mark c.
Proof. unfold is_mark. destruct c; simpl; intuition congruence. Qed.

Lemma array_get_mark squares i m :
  is_mark m → array_get squares i = m ↔ squares !! i = Some m.
Proof.
  unfold array_get. intros Hm.
  destruct (squares !! i) as [c|]; simpl; [naive_solver|].
  split; [|done]. intros <-. destruct Hm; done.
Qed.

(** The test of the loop body decides [three_in_a_row]. *)
Lemma line_test_spec squares a b c :
  truthy (array_get squares a)
    && bool_decide (array_get squares a = array_get squares b)
    && bool_decide (array_get squares a = array_get squares c) = true
  ↔ three_in_a_row squares (a, b, c).
Proof.
  rewrite !andb_true_iff, !bool_decide_eq_true, truthy_is_mark. simpl.
  split.
  - intros [[Hm Hab] Hac]. exists (array_get squares a).
    split; [done|]. rewrite <- !array_get_mark by done. auto.
  - intros (m & Hm & Ha & Hb & Hc).
    apply array_get_mark in Ha, Hb, Hc; try done. by subst.
Qed.

Lemma calculateWinner_from_Some ls squares w :
  calculateWinner_from ls squares = Some w ↔
  ∃ k a b c,
    ls !! k = Some (a, b, c) ∧ three_in_a_row squares (a, b, c) ∧
    (∀ j t, j < k → ls !! j = Some t → ¬ three_in_a_row squares t) ∧
    w = {| player := array_get squares a; line := [a; b; c] |}.
Proof.
  induction ls as [|[[a b] c] rest IH]; simpl.
  { split; [done|]. by intros (k & ? & ? & ? & ? & _). }
  destruct (truthy _ && _ && _) eqn:Htest.
  - apply line_test_spec in Htest. split.
    + intros [= <-]. exists 0, a, b, c. repeat split; auto. lia.
    + intros ([|k] & a' & b' & c' & Hk & Hrow & Hfirst & ->); simpl in Hk.
      * by simplify_eq.
      * destruct (Hfirst 0 (a, b, c)); [lia|done|done].
  - assert (¬ three_in_a_row squares (a, b, c)) as Hno.
    { rewrite <- line_test_spec. by rewrite Htest. }
    rewrite IH. split.
    + intros (k & a' & b' & c' & Hk & Hrow & Hfirst & ->).
      exists (S k), a', b', c'. repeat split; auto.
      intros [|j] t Hj Ht; simpl in Ht; [by simplify_eq|].
      apply (Hfirst j); [lia|done].
    + intros ([|k] & a' & b' & c' & Hk & Hrow & Hfirst & ->); simpl in Hk.
      * by simplify_eq.
      * exists k, a', b', c'. repeat split; auto.
        intros j t Hj Ht. apply (Hfirst (S j)); [lia|done].
Qed.

Lemma calculateWinner_from_None ls squares :
  calculateWinner_from ls squares = None ↔
  ∀ t, t ∈ ls → ¬ three_in_a_row squares t.
Proof.
  induction ls as [|[[a b] c] rest IH]; simpl.
  { split; [|done]. intros _ t Ht. by apply elem_of_nil in Ht. }
  destruct (truthy _ && _ && _) eqn:Htest.
  - apply line_test_spec in Htest. split; [done|].
    intros Hall. destruct (Hall (a, b, c)); [left|done].
  - assert (¬ three_in_a_row squares (a, b, c)) as Hno.
    { rewrite <- line_test_spec. by rewrite Htest. }
    rewrite IH. split.
    + intros Hall t [->|Ht]%elem_of_cons; auto.
    + intros Hall t Ht. apply Hall. by right.
Qed.

Lemma calculateWinner_only_line m t :
  is_mark m → t ∈ lines →
  calculateWinner (only_line m t)
    = Some {| player := m; line := [t.1.1; t.1.2; t.2] |}.
Proof.
  intros Hm Ht. unfold lines in Ht.
  repeat (apply elem_of_cons in Ht as [->|Ht]);
    [..|by apply elem_of_nil in Ht];
    destruct Hm as [-> | ->]; reflexivity.
Qed.

(** C1: [calculateWinner] visits the eight fixed triples (rows, columns,
    diagonals, in that order) and returns the mark and the indices of the
    first one whose three cells are non-empty and equal; it returns no
    winner exactly when no triple qualifies; and for each of the eight
    triples, the board carrying one mark on that triple and nothing else
    yields that mark together with that triple. *)
Theorem calculateWinner_correct squares :
  lines = [ (0, 1, 2); (3, 4, 5); (6, 7, 8);
            (0, 3, 6); (1, 4, 7); (2, 5, 8);
            (0, 4, 8); (2, 4, 6) ] ∧
  (∀ w, calculateWinner squares = Some w ↔
     ∃ k a b c,
       lines !! k = Some (a, b, c) ∧ three_in_a_row squares (a, b, c) ∧
       (∀ j t, j < k → lines !! j = Some t → ¬ three_in_a_row squares t) ∧
       w = {| player := array_get squares a; line := [a; b; c] |}) ∧
  (calculateWinner squares = None ↔
     ∀ t, t ∈ lines → ¬ three_in_a_row squares t) ∧
  (∀ m a b c, is_mark m → (a, b, c) ∈ lines →
     calculateWinner (only_line m (a, b, c))
       = Some {| player := m; line := [a; b; c] |}).
Proof.
  split; [reflexivity|]. split; [|split].
  - intros w. apply calculateWinner_from_Some.
  - apply calculateWinner_from_None.
  - intros m a b c Hm Ht. by apply (calculateWinner_only_line m (a, b, c)).
Qed.

Lemma calculateWinner_correct_witness :
  calculateWinner [Null; Null; O; Null; O; Null; O; Null; Null]
    = Some {| player := O; line := [2; 4; 6] |}.
Proof.
  apply (proj2 (proj2 (proj2 (calculateWinner_correct []))) O 2 4 6).
  - right. reflexivity.
  - apply (list_elem_of_lookup_2 _ 7). reflexivity.
Defined.

End win_evaluator.

(** * Game controller *)

Section controller.
Implicit Types (st : state) (sq : list cell) (i k : nat).

Lemma calculateWinner_is_Some sq :
  is_Some (calculateWinner sq) ↔ ∃ t, t ∈ lines ∧ three_in_a_row sq t.
Proof.
  split.
  - intros [w Hw]. apply calculateWinner_from_Some in Hw
      as (k & a & b & c & Hk & Hrow & _).
    exists (a, b, c). split; [|done]. by eapply list_elem_of_lookup_2.
  - intros (t & Ht & Hrow).
    destruct (calculateWinner sq) as [w|] eqn:Hw; [by eexists|].
    exfalso. eapply calculateWinner_from_None; eauto.
Qed.

Lemma handleClick_None x sq i :
  handleClick x sq i = None ↔
  is_Some (calculateWinner sq) ∨ is_mark (array_get sq i).
Proof.
  unfold handleClick. rewrite <- truthy_is_mark.
  destruct (bool_decide _ || _) eqn:Hguard.
  - apply orb_true_iff in Hguard. rewrite bool_decide_eq_true in Hguard.
    by destruct x.
  - apply orb_false_iff in Hguard as [Hw Ht].
    rewrite bool_decide_eq_false in Hw.
    split; [by destruct x|]. intros [?|?]; [done|congruence].
Qed.

Lemma handleClick_Some x sq i nsq loc :
  handleClick x sq i = Some (nsq, loc) ↔
  calculateWinner sq = None ∧ truthy (array_get sq i) = false ∧
  nsq = array_set i (if x then X else O) sq ∧ loc = caption i.
Proof.
  unfold handleClick, caption.
  destruct (bool_decide _ || _) eqn:Hguard.
  - apply orb_true_iff in Hguard. rewrite bool_decide_eq_true in Hguard.
    split; [done|]. intros (Hw & Ht & _).
    destruct Hguard as [[w Hw']|?]; congruence.
  - apply orb_false_iff in Hguard as [Hw Ht].
    rewrite bool_decide_eq_false, <- eq_None_not_Some in Hw.
    split.
    + intros [= <- <-]. by destruct x.
    + intros (_ & _ & -> & ->). by destruct x.
Qed.

Lemma xIsNext_turn st : (if xIsNext st then X else O) = turn (currentMove st).
Proof. done. Qed.

Lemma play_blocked_eq st sq i :
  currentSquares st = Some sq →
  handleClick (xIsNext st) sq i = None → play i st = Some st.
Proof. intros Hsq Hc. unfold play. by rewrite Hsq; simpl; rewrite Hc. Qed.

Lemma play_handlePlay st sq i nsq loc :
  currentSquares st = Some sq →
  handleClick (xIsNext st) sq i = Some (nsq, loc) →
  play i st = Some (handlePlay nsq loc st).
Proof. intros Hsq Hc. unfold play. by rewrite Hsq; simpl; rewrite Hc. Qed.

Lemma currentSquares_Some st sq :
  currentSquares st = Some sq →
  ∃ en, history st !! currentMove st = Some en ∧ squares en = sq.
Proof.
  unfold currentSquares. destruct (history st !! currentMove st); naive_solver.
Qed.

Lemma currentSquares_lt st sq :
  currentSquares st = Some sq → currentMove st < length (history st).
Proof.
  intros (en & Hen & _)%currentSquares_Some. by eapply lookup_lt_Some.
Qed.

(** Shape of the state after [handlePlay], when the pointer is in range. *)
Lemma handlePlay_spec st nsq loc :
  currentMove st < length (history st) →
  history (handlePlay nsq loc st)
    = take (S (currentMove st)) (history st)
        ++ [ {| squares := nsq; location := loc |} ] ∧
  currentMove (handlePlay nsq loc st) = S (currentMove st) ∧
  length (history (handlePlay nsq loc st)) = currentMove st + 2 ∧
  isAscending (handlePlay nsq loc st) = isAscending st.
Proof.
  intros Hlt. unfold handlePlay; cbn [history currentMove isAscending].
  rewrite Nat.add_1_r, length_app, length_take, Nat.min_l by lia.
  cbn [length]. repeat split; lia || done.
Qed.

Lemma handlePlay_changes st nsq loc :
  currentMove st < length (history st) → handlePlay nsq loc st ≠ st.
Proof.
  intros Hlt Heq. destruct (handlePlay_spec st nsq loc Hlt) as (_ & Hp & _).
  rewrite Heq in Hp. lia.
Qed.

(** A play that changes the state is one whose click passed the guard. *)
Lemma play_changes st i st' :
  play i st = Some st' → st' ≠ st →
  ∃ sq, currentSquares st = Some sq ∧
        calculateWinner sq = None ∧ truthy (array_get sq i) = false ∧
        st' = handlePlay (array_set i (turn (currentMove st)) sq)
                         (caption i) st.
Proof.
  unfold play. intros Hplay Hne.
  destruct (currentSquares st) as [sq|] eqn:Hsq; [|done]. simpl in Hplay.
  destruct (handleClick _ _ _) as [[nsq loc]|] eqn:Hc; [|congruence].
  apply handleClick_Some in Hc as (Hw & Ht & -> & ->).
  exists sq. rewrite <- xIsNext_turn. naive_solver.
Qed.

End controller.

(** * Guards of [play] *)

Section guards.
Implicit Types (st : state) (sq : list cell) (i k : nat).

(** C2: with [sq] the board at the pointer, a click on cell [i] changes
    nothing (history, pointer and sort flag stay as they are) when some
    winning triple is complete on [sq], or when [i] is one of the nine
    cells and all nine are occupied, or when cell [i] is occupied. *)
Theorem play_noop_when_blocked st sq i :
  currentSquares st = Some sq →
  (∃ t, t ∈ lines ∧ three_in_a_row sq t)
  ∨ (i < 9 ∧ ∀ j, j < 9 → ∃ m, is_mark m ∧ sq !! j = Some m)
  ∨ (∃ m, is_mark m ∧ sq !! i = Some m) →
  play i st = Some st.
Proof.
  intros Hsq Hblocked. apply (play_blocked_eq st sq i Hsq).
  apply handleClick_None.
  destruct Hblocked as [Hwin | [[Hi Hfull] | Hocc]].
  - left. by apply calculateWinner_is_Some.
  - right. destruct (Hfull i Hi) as (m & Hm & Hlook).
    by apply array_get_mark in Hlook as ->.
  - right. destruct Hocc as (m & Hm & Hlook).
    by apply array_get_mark in Hlook as ->.
Qed.

Lemma play_noop_when_blocked_witness :
  play 2 (after [Click 0; Click 1; Click 3; Click 4; Click 6])
    = Some (after [Click 0; Click 1; Click 3; Click 4; Click 6]) ∧
  play 4 (after [Click 0; Click 1; Click 2; Click 4; Click 3;
                 Click 5; Click 7; Click 6; Click 8])
    = Some (after [Click 0; Click 1; Click 2; Click 4; Click 3;
                   Click 5; Click 7; Click 6; Click 8]) ∧
  play 0 (after [Click 0]) = Some (after [Click 0]).
Proof.
  split; [|split].
  - apply (play_noop_when_blocked _ [X; O; Null; X; O; Null; X; Null; Null]);
      [reflexivity|].
    left. exists (0, 3, 6).
    split; [by apply (list_elem_of_lookup_2 _ 3)|].
    exists X. repeat split. by left.
  - apply (play_noop_when_blocked _ [X; O; X; X; O; O; O; X; X]);
      [reflexivity|].
    right; left. split; [lia|]. intros j Hj.
    do 9 (destruct j as [|j]; [vm_compute; eauto|]). lia.
  - apply (play_noop_when_blocked _ [X; Null; Null; Null; Null; Null;
                                      Null; Null; Null]); [reflexivity|].
    right; right. exists X. split; [by left|reflexivity].
Defined.

(** C3, as the code has it: neither handler checks its argument.  A click
    on an array index [i] past the nine cells (from 9 to [2^32 - 2]) is
    ignored only when the board at the pointer already has a winner;
    otherwise it is played like any other click: the entries after the
    pointer are dropped and an entry is appended whose board is the current
    one grown to [i + 1] slots with the mover's mark in slot [i], the sort
    flag and the entries up to the pointer being kept.  [jumpTo n] sets the
    pointer to [n] whatever [n] is, and keeps history and sort flag. *)
Theorem out_of_range_unchecked st sq i n :
  currentSquares st = Some sq → length sq = 9 →
  9 ≤ i → is_array_index i →
  length (history st) ≤ n →
  (is_Some (calculateWinner sq) → play i st = Some st) ∧
  (calculateWinner sq = None →
     play i st = Some
       {| history :=
            take (S (currentMove st)) (history st)
              ++ [ {| squares :=
                        sq ++ replicate (i - 9) Undefined
                           ++ [turn (currentMove st)];
                      location := caption i |} ];
          currentMove := S (currentMove st);
          isAscending := isAscending st |}) ∧
  jumpTo n st
    = {| history := history st; currentMove := n;
         isAscending := isAscending st |}.
Proof.
  intros Hsq Hlen Hi Hindex Hn. split; [|split; [|done]].
  - intros Hw. apply (play_blocked_eq st sq i Hsq).
    apply handleClick_None. by left.
  - intros Hw.
    assert (array_get sq i = Undefined) as Hget.
    { unfold array_get. rewrite lookup_ge_None_2; [done|lia]. }
    rewrite (play_handlePlay st sq i
               (array_set i (turn (currentMove st)) sq) (caption i) Hsq).
    + f_equal. pose proof (currentSquares_lt _ _ Hsq) as Hlt.
      destruct (handlePlay_spec st
                  (array_set i (turn (currentMove st)) sq) (caption i) Hlt)
        as (Hh & Hp & _ & Ha).
      destruct (handlePlay _ _ st) as [h p a]; simpl in *. subst.
      unfold array_set. rewrite decide_False by lia.
      rewrite decide_True by done. by rewrite Hlen.
    + apply handleClick_Some. by rewrite Hget.
Qed.

Lemma out_of_range_unchecked_witness :
  play 9 initial = Some
    {| history :=
         [ initial_entry;
           {| squares := [Null; Null; Null; Null; Null; Null; Null; Null;
                          Null; X];
              location := "(1, 4)" |} ];
       currentMove := 1; isAscending := true |} ∧
  jumpTo 1 initial
    = {| history := [initial_entry]; currentMove := 1;
         isAscending := true |}.
Proof.
  destruct (out_of_range_unchecked initial (replicate 9 Null) 9 1)
    as (_ & Hplay & Hjump);
    [reflexivity|reflexivity|lia|unfold is_array_index; lia|simpl; lia|].
  split; [|exact Hjump]. rewrite Hplay; reflexivity.
Defined.

(** C3, as the specification states it, fails: on the initial state a
    click on index 9 and a jump to history index 1 are both out of range,
    and both change the state.  After that jump there is no board at the
    pointer any more. *)
Lemma out_of_range_not_ignored :
  ¬ (∀ st sq i, currentSquares st = Some sq → 8 < i → play i st = Some st) ∧
  ¬ (∀ st n, length (history st) - 1 < n → jumpTo n st = st) ∧
  play 9 initial ≠ Some initial ∧
  jumpTo 1 initial ≠ initial ∧
  currentSquares (jumpTo 1 initial) = None.
Proof.
  assert (play 9 initial ≠ Some initial) as Hplay by (vm_compute; congruence).
  assert (jumpTo 1 initial ≠ initial) as Hjump by (vm_compute; congruence).
  repeat split; [| |done..].
  - intros Hall. apply Hplay. apply (Hall _ (replicate 9 Null)); [done|lia].
  - intros Hall. apply Hjump. apply Hall. simpl. lia.
Qed.

End guards.

(** * Reachable states *)

Section reachable_states.
Implicit Types (st : state) (sq : list cell) (h : list entry) (i k : nat).

(** Overwriting slot [i] splits the board around that slot. *)
Lemma insert_split sq i c v :
  sq !! i = Some c →
  ∃ l1 l2, sq = l1 ++ c :: l2 ∧ <[i:=v]> sq = l1 ++ v :: l2.
Proof.
  intros Hi. exists (take i sq), (drop (S i) sq). split.
  - symmetry. by apply take_drop_middle.
  - apply insert_take_drop. by eapply lookup_lt_Some.
Qed.

Lemma turn_is_mark k : is_mark (turn k).
Proof. unfold turn, is_mark. destruct (Nat.even k); auto. Qed.

Lemma board_ok_initial : board_ok (replicate 9 Null).
Proof.
  split; [done|]. intros Hin. by apply elem_of_replicate in Hin as [[=] _].
Qed.

(** On a board of the data model, a falsy cell among the nine is empty. *)
Lemma board_ok_falsy sq i :
  board_ok sq → i < 9 → truthy (array_get sq i) = false →
  sq !! i = Some Null.
Proof.
  intros [Hlen Hdef] Hi Hfalsy. unfold array_get in Hfalsy.
  destruct (lookup_lt_is_Some_2 sq i) as [c Hc]; [lia|].
  rewrite Hc in Hfalsy |- *. simpl in Hfalsy.
  destruct c; try done. destruct Hdef. by eapply list_elem_of_lookup_2.
Qed.

Lemma board_ok_insert sq i k :
  board_ok sq → sq !! i = Some Null → board_ok (<[i:=turn k]> sq).
Proof.
  intros [Hlen Hdef] Hi. split; [by rewrite length_insert|].
  destruct (insert_split sq i Null (turn k) Hi) as (l1 & l2 & Hsq & ->).
  rewrite Hsq in Hdef. rewrite elem_of_app, elem_of_cons in Hdef |- *.
  intros [?|[Hturn|?]]; [tauto| |tauto].
  unfold turn in Hturn. by destruct (Nat.even k).
Qed.

Lemma array_set_in_range sq i v :
  i < length sq → array_set i v sq = <[i:=v]> sq.
Proof. intros Hi. unfold array_set. by rewrite decide_True. Qed.

Lemma alternating_snoc h k e e' i :
  alternating h → h !! k = Some e →
  i < 9 → squares e !! i = Some Null →
  squares e' = <[i:=turn k]> (squares e) → location e' = caption i →
  alternating (take (S k) h ++ [e']).
Proof.
  intros Halt Hk Hi Hnull Hsq Hloc j e1 e2 Hj HSj.
  assert (length (take (S k) h) = S k) as Hlen.
  { rewrite length_take. apply lookup_lt_Some in Hk. lia. }
  destruct (decide (j < k)) as [Hlt|Hge].
  - rewrite lookup_app_l, lookup_take_lt in Hj, HSj by lia. eauto.
  - destruct (decide (j = k)) as [->|Hne].
    + rewrite lookup_app_l, lookup_take_lt in Hj by lia.
      rewrite lookup_app_r, Hlen, Nat.sub_diag in HSj by lia.
      simplify_eq/=. eauto.
    + apply lookup_lt_Some in HSj.
      rewrite length_app, Hlen in HSj. simpl in HSj. lia.
Qed.

Lemma well_formed_initial : well_formed initial.
Proof.
  split; [simpl; lia|]. split; [done|]. split.
  - intros [|k] e [=]. subst. apply board_ok_initial.
  - intros k e e' _ Hk. by destruct k.
Qed.

(** A click the page offers, on a well-formed state, that passes the guard:
    the cell was empty and the new board is the old one with the mover's
    mark on it. *)
Lemma well_formed_click st sq i :
  well_formed st → currentSquares st = Some sq → i < 9 →
  calculateWinner sq = None → truthy (array_get sq i) = false →
  sq !! i = Some Null ∧
  array_set i (turn (currentMove st)) sq = <[i:=turn (currentMove st)]> sq ∧
  well_formed (handlePlay (array_set i (turn (currentMove st)) sq)
                          (caption i) st).
Proof.
  intros (Hlt & H0 & Hboards & Halt) Hsq Hi Hw Hfalsy.
  destruct (currentSquares_Some _ _ Hsq) as (en & Hen & <-).
  pose proof (Hboards _ _ Hen) as Hok.
  pose proof (board_ok_falsy _ _ Hok Hi Hfalsy) as Hnull.
  assert (array_set i (turn (currentMove st)) (squares en)
          = <[i:=turn (currentMove st)]> (squares en)) as Hset.
  { apply array_set_in_range. destruct Hok as [-> _]. lia. }
  split; [done|]. split; [done|]. rewrite Hset.
  set (nsq := <[i:=turn (currentMove st)]> (squares en)).
  destruct (handlePlay_spec st nsq (caption i) Hlt) as (Hh & Hp & Hl & _).
  unfold well_formed. rewrite Hh, Hp, length_app, length_take.
  rewrite Nat.min_l by lia. cbn [length].
  split; [lia|]. split; [|split].
  - rewrite lookup_app_l by (rewrite length_take; lia).
    rewrite lookup_take_lt by lia. done.
  - intros k e Hk. apply lookup_app_Some in Hk as [Hk|[_ Hk]].
    + apply lookup_take_Some in Hk as [Hk _]. eauto.
    + apply list_lookup_singleton_Some in Hk as [_ <-]. simpl.
      by apply board_ok_insert.
  - by eapply (alternating_snoc _ _ en _ i).
Qed.

Lemma well_formed_dispatch st e st' :
  well_formed st → offered st e → dispatch e st = Some st' →
  well_formed st'.
Proof.
  intros Hwf Hoff Hd. destruct e as [i|n|]; simpl in *.
  - destruct (decide (st' = st)) as [->|Hne]; [done|].
    destruct (play_changes _ _ _ Hd Hne) as (sq & Hsq & Hw & Hf & ->).
    by apply well_formed_click.
  - injection Hd as <-. destruct Hwf as (? & ? & ? & ?).
    split; [exact Hoff|]. by split; [|split].
  - injection Hd as <-. destruct Hwf as (? & ? & ? & ?).
    split; [done|]. by split; [|split].
Qed.

Lemma reachable_well_formed st : reachable st → well_formed st.
Proof.
  induction 1 as [|st e st' _ IH Hoff Hd].
  - apply well_formed_initial.
  - by eapply well_formed_dispatch.
Qed.

(** A well-formed state renders, so every event yields a next state. *)
Lemma well_formed_dispatch_total st e :
  well_formed st → is_Some (dispatch e st).
Proof.
  intros (Hlt & _). destruct e; simpl; [|by eexists..].
  unfold play, currentSquares.
  destruct (lookup_lt_is_Some_2 (history st) (currentMove st) Hlt) as [en ->].
  by eexists.
Qed.

End reachable_states.

(** * History *)

Section history_log.
Implicit Types (st : state) (sq : list cell) (h : list entry) (i k : nat).

(** C4: a play that changes the state keeps the entries up to the pointer,
    drops the ones after it, appends a single new entry and moves the
    pointer to that entry, the last one.  In every reachable state the
    history is non-empty and starts with the empty-board entry.  After
    [play 0], [play 4], [jumpTo 0], [play 4] the history has length 2 and
    the pointer is 1: the entry of the second click (an [O] on cell 4) is
    gone and the entry at index 1 carries an [X] on cell 4. *)
Theorem play_truncates_and_appends :
  (∀ st i st', play i st = Some st' → st' ≠ st →
     ∃ e', history st'
             = take (S (currentMove st)) (history st) ++ [e'] ∧
           (∀ k, k ≤ currentMove st →
                 history st' !! k = history st !! k) ∧
           length (history st') = currentMove st + 2 ∧
           currentMove st' = length (history st') - 1 ∧
           history st' !! currentMove st' = Some e') ∧
  (∀ st, reachable st →
     history st ≠ [] ∧ history st !! 0 = Some initial_entry) ∧
  history (after [Click 0; Click 4])
    = [ initial_entry;
        {| squares := [X; Null; Null; Null; Null; Null; Null; Null; Null];
           location := "(1, 1)" |};
        {| squares := [X; Null; Null; Null; O; Null; Null; Null; Null];
           location := "(2, 2)" |} ] ∧
  run [Click 0; Click 4; Jump 0; Click 4] initial = Some
    {| history :=
         [ initial_entry;
           {| squares := [Null; Null; Null; Null; X; Null; Null; Null;
                          Null];
              location := "(2, 2)" |} ];
       currentMove := 1;
       isAscending := true |}.
Proof.
  split; [|split; [|split; reflexivity]].
  - intros st i st' Hplay Hne.
    destruct (play_changes _ _ _ Hplay Hne) as (sq & Hsq & _ & _ & ->).
    pose proof (currentSquares_lt _ _ Hsq) as Hlt.
    set (nsq := array_set _ _ _).
    destruct (handlePlay_spec st nsq (caption i) Hlt) as (Hh & Hp & Hl & _).
    exists {| squares := nsq; location := caption i |}.
    split; [done|]. split; [|split; [done|split; [lia|]]].
    + intros k Hk. rewrite Hh, lookup_app_l by (rewrite length_take; lia).
      apply lookup_take_lt. lia.
    + rewrite Hh, Hp, lookup_app_r by (rewrite length_take; lia).
      rewrite length_take, Nat.min_l by lia. by rewrite Nat.sub_diag.
  - intros st (Hlt & H0 & _)%reachable_well_formed.
    split; [|done]. intros Hnil. by rewrite Hnil in H0.
Qed.

Lemma play_truncates_and_appends_witness :
  ∃ e', history (after [Click 0; Click 4; Jump 0; Click 4])
          = take 1 (history (after [Click 0; Click 4; Jump 0])) ++ [e'] ∧
        (∀ k, k ≤ 0 →
              history (after [Click 0; Click 4; Jump 0; Click 4]) !! k
              = history (after [Click 0; Click 4; Jump 0]) !! k) ∧
        length (history (after [Click 0; Click 4; Jump 0; Click 4])) = 2 ∧
        currentMove (after [Click 0; Click 4; Jump 0; Click 4]) = 2 - 1 ∧
        history (after [Click 0; Click 4; Jump 0; Click 4]) !! 1 = Some e'.
Proof.
  destruct (proj1 play_truncates_and_appends
              (after [Click 0; Click 4; Jump 0]) 4
              (after [Click 0; Click 4; Jump 0; Click 4]))
    as (e' & Hh & Hk & Hl & Hp & He'); [reflexivity|vm_compute; congruence|].
  exists e'. repeat split; assumption.
Defined.

End history_log.

(** * Turns and marks *)

Section turns.
Implicit Types (st : state) (sq : list cell) (h : list entry) (i k : nat).

Lemma marks_app c l1 l2 : marks c (l1 ++ l2) = marks c l1 + marks c l2.
Proof. unfold marks. by rewrite filter_app, length_app. Qed.

Lemma marks_cons c c' l :
  marks c (c' :: l) = (if decide (c' = c) then 1 else 0) + marks c l.
Proof. unfold marks. rewrite filter_cons. by destruct (decide (c' = c)). Qed.

Lemma occupied_app l1 l2 : occupied (l1 ++ l2) = occupied l1 + occupied l2.
Proof. unfold occupied. by rewrite filter_app, length_app. Qed.

Lemma occupied_cons c l :
  occupied (c :: l) = (if decide (c = Null) then 0 else 1) + occupied l.
Proof.
  unfold occupied. rewrite filter_cons.
  by destruct (decide (c ≠ Null)), (decide (c = Null)).
Qed.

(** Putting the mark of turn [k] on an empty cell. *)
Lemma marks_place sq i k :
  sq !! i = Some Null →
  marks X (<[i:=turn k]> sq) = marks X sq + (if Nat.even k then 1 else 0) ∧
  marks O (<[i:=turn k]> sq) = marks O sq + (if Nat.even k then 0 else 1) ∧
  occupied (<[i:=turn k]> sq) = S (occupied sq).
Proof.
  intros Hi.
  destruct (insert_split sq i Null (turn k) Hi) as (l1 & l2 & -> & ->).
  rewrite !marks_app, !marks_cons, !occupied_app, !occupied_cons.
  unfold turn. destruct (Nat.even k); simpl; lia.
Qed.

Lemma insert_lookups sq i v :
  i < length sq →
  <[i:=v]> sq !! i = Some v ∧ (∀ j, j ≠ i → <[i:=v]> sq !! j = sq !! j).
Proof.
  intros Hi. split; [by apply list_lookup_insert_eq|].
  intros j Hj. by apply list_lookup_insert_ne.
Qed.

Lemma half_step k :
  (S k + 1) / 2 = (k + 1) / 2 + (if Nat.even k then 1 else 0) ∧
  S k / 2 = k / 2 + (if Nat.even k then 0 else 1).
Proof.
  destruct (Nat.even k) eqn:Hk.
  - apply Nat.even_spec in Hk as [m ->].
    replace (S (2 * m) + 1) with ((m + 1) * 2) by lia.
    replace (2 * m + 1) with (1 + m * 2) by lia.
    replace (S (2 * m)) with (1 + m * 2) by lia.
    replace (2 * m) with (m * 2) by lia.
    rewrite !Nat.div_add, !Nat.div_mul by lia. simpl. lia.
  - assert (Nat.odd k = true) as Hodd.
    { rewrite <- Nat.negb_even. by rewrite Hk. }
    apply Nat.odd_spec in Hodd as [m ->].
    replace (S (2 * m + 1) + 1) with (1 + (m + 1) * 2) by lia.
    replace (2 * m + 1 + 1) with ((m + 1) * 2) by lia.
    replace (S (2 * m + 1)) with ((m + 1) * 2) by lia.
    replace (2 * m + 1) with (1 + m * 2) by lia.
    rewrite !Nat.div_add, !Nat.div_mul by lia. simpl. lia.
Qed.

Lemma well_formed_counts st k e :
  well_formed st → history st !! k = Some e →
  marks X (squares e) = (k + 1) / 2 ∧
  marks O (squares e) = k / 2 ∧
  occupied (squares e) = k.
Proof.
  intros (_ & H0 & _ & Halt). revert e.
  induction k as [|k IH]; intros e Hk.
  - rewrite H0 in Hk. by injection Hk as <-.
  - destruct (lookup_lt_is_Some_2 (history st) k) as [e0 He0].
    { apply lookup_lt_Some in Hk. lia. }
    destruct (IH e0 He0) as (HX & HO & Hocc).
    destruct (Halt k e0 e He0 Hk) as (i & _ & Hnull & -> & _).
    destruct (marks_place (squares e0) i k Hnull) as (-> & -> & ->).
    destruct (half_step k) as [-> ->]. lia.
Qed.

(** C6: in a reachable state the player to move is read off the parity of
    the pointer ([X] when it is even).  A click on one of the nine cells
    that changes the state finds that cell empty, puts there the mark of
    the player to move, leaves the other eight cells as they were, and
    advances the pointer by one.  Along the history, each board is the
    previous one with a single empty cell filled, by [X] after an even
    index and by [O] after an odd one. *)
Theorem marks_alternate st :
  reachable st →
  xIsNext st = Nat.even (currentMove st) ∧
  (∀ i st', i < 9 → play i st = Some st' → st' ≠ st →
     ∃ sq sq',
       currentSquares st = Some sq ∧ currentSquares st' = Some sq' ∧
       sq !! i = Some Null ∧
       sq' !! i = Some (if xIsNext st then X else O) ∧
       (∀ j, j ≠ i → sq' !! j = sq !! j) ∧
       length sq' = length sq ∧
       currentMove st' = S (currentMove st)) ∧
  (∀ k e e', history st !! k = Some e → history st !! S k = Some e' →
     ∃ i, squares e !! i = Some Null ∧
          squares e' !! i = Some (if Nat.even k then X else O) ∧
          (∀ j, j ≠ i → squares e' !! j = squares e !! j) ∧
          length (squares e') = length (squares e)).
Proof.
  intros Hwf%reachable_well_formed. split; [done|]. split.
  - intros i st' Hi Hplay Hne.
    destruct (play_changes _ _ _ Hplay Hne) as (sq & Hsq & Hw & Hf & ->).
    destruct (well_formed_click st sq i Hwf Hsq Hi Hw Hf)
      as (Hnull & Hset & _).
    pose proof (currentSquares_lt _ _ Hsq) as Hlt.
    set (nsq := array_set i (turn (currentMove st)) sq) in *.
    destruct (handlePlay_spec st nsq (caption i) Hlt) as (Hh & Hp & _).
    destruct (insert_lookups sq i (turn (currentMove st))) as [Hat Hother].
    { by eapply lookup_lt_Some. }
    exists sq, nsq. split; [done|]. split.
    { unfold currentSquares. rewrite Hh, Hp.
      rewrite lookup_app_r, length_take, Nat.min_l by
        (rewrite ?length_take; lia).
      by rewrite Nat.sub_diag. }
    subst nsq. rewrite Hset in Hp |- *.
    repeat split; try done. by rewrite length_insert.
  - intros k e e' Hk HSk.
    destruct Hwf as (_ & _ & _ & Halt).
    destruct (Halt k e e' Hk HSk) as (i & _ & Hnull & -> & _).
    destruct (insert_lookups (squares e) i (turn k)) as [Hat Hother].
    { by eapply lookup_lt_Some. }
    exists i. repeat split; try done. by rewrite length_insert.
Qed.

Lemma marks_alternate_witness :
  ∃ i, [Null; Null; Null; Null; X; Null; Null; Null; Null] !! i = Some Null ∧
       [O; Null; Null; Null; X; Null; Null; Null; Null] !! i
         = Some (if Nat.even 1 then X else O) ∧
       (∀ j, j ≠ i →
          [O; Null; Null; Null; X; Null; Null; Null; Null] !! j
          = [Null; Null; Null; Null; X; Null; Null; Null; Null] !! j) ∧
       length [O; Null; Null; Null; X; Null; Null; Null; Null]
         = length [Null; Null; Null; Null; X; Null; Null; Null; Null].
Proof.
  destruct (marks_alternate (after [Click 4; Click 0])) as (_ & _ & Halt).
  - apply (reachable_step (after [Click 4]) (Click 0));
      [|simpl; lia|reflexivity].
    apply (reachable_step initial (Click 4));
      [apply reachable_initial|simpl; lia|reflexivity].
  - apply (Halt 1
             {| squares := [Null; Null; Null; Null; X; Null; Null; Null;
                            Null];
                location := "(2, 2)" |}
             {| squares := [O; Null; Null; Null; X; Null; Null; Null; Null];
                location := "(1, 1)" |}); reflexivity.
Defined.

(** C10: in a reachable state the board stored at history index [k] has
    exactly [k] non-empty cells, [(k + 1) / 2] of them [X] (that is, [k / 2]
    rounded up) and [k / 2] of them [O]. *)
Theorem snapshot_counts st k e :
  reachable st → history st !! k = Some e →
  occupied (squares e) = k ∧
  marks X (squares e) = (k + 1) / 2 ∧
  marks O (squares e) = k / 2 ∧
  (k + 1) / 2 + k / 2 = k.
Proof.
  intros Hwf%reachable_well_formed Hk.
  destruct (well_formed_counts st k e Hwf Hk) as (HX & HO & Hocc).
  repeat split; try done.
  clear. induction k as [|k IH]; [done|].
  destruct (half_step k) as [-> ->]. destruct (Nat.even k); lia.
Qed.

Lemma snapshot_counts_witness :
  occupied [X; O; Null; X; Null; Null; Null; Null; Null] = 3 ∧
  marks X [X; O; Null; X; Null; Null; Null; Null; Null] = (3 + 1) / 2 ∧
  marks O [X; O; Null; X; Null; Null; Null; Null; Null] = 3 / 2 ∧
  (3 + 1) / 2 + 3 / 2 = 3.
Proof.
  apply (snapshot_counts (after [Click 0; Click 1; Click 3]) 3
           {| squares := [X; O; Null; X; Null; Null; Null; Null; Null];
              location := "(1, 2)" |}); [|reflexivity].
  apply (reachable_step (after [Click 0; Click 1]) (Click 3));
    [|simpl; lia|reflexivity].
  apply (reachable_step (after [Click 0]) (Click 1));
    [|simpl; lia|reflexivity].
  apply (reachable_step initial (Click 0));
    [apply reachable_initial|simpl; lia|reflexivity].
Defined.

End turns.

(** * Derived status *)

Section derived_status.
Implicit Types (st : state) (sq : list cell).

Lemma every_Boolean_spec sq : every_Boolean sq = true ↔ Null ∉ sq.
Proof.
  unfold every_Boolean. induction sq as [|c sq IH]; simpl.
  - split; [|done]. intros _ Hin. by apply elem_of_nil in Hin.
  - rewrite andb_true_iff, IH, not_elem_of_cons.
    destruct c; simpl; intuition congruence.
Qed.

Lemma calculateWinner_player sq w :
  calculateWinner sq = Some w → is_mark (player w).
Proof.
  intros (k & a & b & c & _ & (m & Hm & Ha & _) & _ & ->)
    %calculateWinner_from_Some.
  simpl. by apply array_get_mark in Ha as ->.
Qed.



End derived_status.

(** * Navigation and sort order *)

Section navigation.
Implicit Types (st : state).

(** C7: [toggleSortOrder] negates the sort flag and keeps history and
    pointer; the move list itself is the same and the list shown is the
    reverse of the one shown before.  [jumpTo] with an existing history
    index sets the pointer to it and keeps history and sort flag. *)
Theorem toggle_and_jump_frame st :
  (history (toggleSortOrder st) = history st ∧
   currentMove (toggleSortOrder st) = currentMove st ∧
   isAscending (toggleSortOrder st) = negb (isAscending st) ∧
   moves (toggleSortOrder st) = moves st ∧
   displayedMoves (toggleSortOrder st) = reverse (displayedMoves st)) ∧
  (∀ n, n < length (history st) →
     history (jumpTo n st) = history st ∧
     currentMove (jumpTo n st) = n ∧
     isAscending (jumpTo n st) = isAscending st ∧
     is_Some (currentSquares (jumpTo n st))).
Proof.
  split.
  - repeat split. unfold displayedMoves, toggleSortOrder; simpl.
    change (moves {| history := history st; currentMove := currentMove st;
                     isAscending := negb (isAscending st) |})
      with (moves st).
    destruct (isAscending st); simpl; [done|].
    by rewrite reverse_involutive.
  - intros n Hn. repeat split. unfold currentSquares; simpl.
    destruct (lookup_lt_is_Some_2 (history st) n Hn) as [en ->].
    by eexists.
Qed.

Lemma toggle_and_jump_frame_witness :
  description <$> displayedMoves (toggleSortOrder (after [Click 0; Click 4]))
    = ["Go to move #2 ((2, 2))"; "Go to move #1 ((1, 1))";
       "Go to game start"] ∧
  currentMove (jumpTo 1 (after [Click 0; Click 4])) = 1 ∧
  history (jumpTo 1 (after [Click 0; Click 4]))
    = history (after [Click 0; Click 4]).
Proof.
  destruct (toggle_and_jump_frame (after [Click 0; Click 4]))
    as ((_ & _ & _ & _ & Hshown) & Hjump).
  destruct (Hjump 1) as (Hh & Hp & _); [simpl; lia|].
  split; [rewrite Hshown; vm_compute; reflexivity|].
  split; [exact Hp|exact Hh].
Defined.

End navigation.

(** * Move locations *)

Section locations.
Implicit Types (st : state) (i : nat).

(** The entry a state-changing click leaves at the new pointer. *)
Lemma play_appended_entry st i st' :
  play i st = Some st' → st' ≠ st →
  ∃ sq, currentSquares st = Some sq ∧
        history st' !! currentMove st'
          = Some {| squares := array_set i (turn (currentMove st)) sq;
                    location := caption i |}.
Proof.
  intros Hplay Hne.
  destruct (play_changes _ _ _ Hplay Hne) as (sq & Hsq & _ & _ & ->).
  pose proof (currentSquares_lt _ _ Hsq) as Hlt.
  set (nsq := array_set _ _ _).
  destruct (handlePlay_spec st nsq (caption i) Hlt) as (Hh & Hp & _).
  exists sq. split; [done|].
  rewrite Hh, Hp, lookup_app_r by (rewrite length_take; lia).
  rewrite length_take, Nat.min_l by lia. by rewrite Nat.sub_diag.
Qed.

(** C8: a click on cell [i] of the nine that changes the state stores, in
    the entry it appends, the caption "(col, row)" with [col = i mod 3 + 1]
    and [row = i / 3 + 1], both between 1 and 3 and such that
    [i = 3 * (row - 1) + (col - 1)]; the nine captions are listed below.
    The initial history entry has the empty caption. *)
Theorem location_caption :
  (∀ st i st', i < 9 → play i st = Some st' → st' ≠ st →
     ∃ col row,
       col = i mod 3 + 1 ∧ row = i / 3 + 1 ∧
       1 ≤ col ≤ 3 ∧ 1 ≤ row ≤ 3 ∧ i = 3 * (row - 1) + (col - 1) ∧
       location <$> history st' !! currentMove st'
         = Some ("(" +:+ pretty col +:+ ", " +:+ pretty row +:+ ")")) ∧
  caption <$> seq 0 9
    = [ "(1, 1)"; "(2, 1)"; "(3, 1)";
        "(1, 2)"; "(2, 2)"; "(3, 2)";
        "(1, 3)"; "(2, 3)"; "(3, 3)" ] ∧
  location <$> history initial !! 0 = Some "".
Proof.
  split; [|split; reflexivity].
  intros st i st' Hi Hplay Hne.
  destruct (play_appended_entry st i st' Hplay Hne) as (sq & _ & Hlast).
  exists (i mod 3 + 1), (i / 3 + 1).
  pose proof (Nat.mod_upper_bound i 3).
  pose proof (Nat.div_mod_eq i 3).
  assert (i / 3 < 3) by (apply Nat.Div0.div_lt_upper_bound; lia).
  repeat split; try lia. by rewrite Hlast.
Qed.

Lemma location_caption_witness :
  ∃ col row,
    col = 5 mod 3 + 1 ∧ row = 5 / 3 + 1 ∧
    1 ≤ col ≤ 3 ∧ 1 ≤ row ≤ 3 ∧ 5 = 3 * (row - 1) + (col - 1) ∧
    location <$> history (after [Click 5]) !! currentMove (after [Click 5])
      = Some ("(" +:+ pretty col +:+ ", " +:+ pretty row +:+ ")").
Proof.
  apply (proj1 location_caption initial 5 (after [Click 5]));
    [lia|reflexivity|vm_compute; congruence].
Defined.

End locations.

(** * Snapshots in the store *)

Section store.
Implicit Types (σ : gmap nat (list cell)) (st : Heap.state) (i k l : nat).

(** The store-based handler runs the array-based one on the contents of
    the clicked board and stores its result at a fresh address. *)
Lemma heap_handleClick_eq x l i σ a :
  σ !! l = Some a →
  Heap.handleClick x l i σ
    = match handleClick x a i with
      | None => Some (σ, None)
      | Some (nsq, loc) =>
          Some (<[fresh (dom σ):=nsq]> σ, Some (fresh (dom σ), loc))
      end.
Proof.
  intros Ha. unfold Heap.handleClick, handleClick. rewrite Ha. simpl.
  destruct (bool_decide _ || _); [done|].
  destruct x; by rewrite alter_insert_eq.
Qed.

(** What [handleClick] does to the store: arrays that exist keep their
    contents; when [onPlay] is called, its board is a newly allocated array
    holding the contents of the clicked board with the mark written at
    [i]. *)
Lemma heap_handleClick_spec x l i σ σ' call :
  Heap.handleClick x l i σ = Some (σ', call) →
  (∀ l0 a, σ !! l0 = Some a → σ' !! l0 = Some a) ∧
  ∃ a, σ !! l = Some a ∧
       match call with
       | None => handleClick x a i = None ∧ σ' = σ
       | Some (l', loc) =>
           (l' ∉ dom σ) ∧
           ∃ nsq, handleClick x a i = Some (nsq, loc) ∧
                  σ' = <[l':=nsq]> σ
       end.
Proof.
  intros Hc. destruct (σ !! l) as [a|] eqn:Ha;
    [|by unfold Heap.handleClick in Hc; rewrite Ha in Hc].
  rewrite (heap_handleClick_eq x l i σ a Ha) in Hc.
  pose proof (is_fresh (dom σ)) as Hfresh.
  destruct (handleClick x a i) as [[nsq loc]|] eqn:Hclick;
    injection Hc as <- <-.
  - split.
    + intros l0 a0 Hl0. rewrite lookup_insert_ne; [done|].
      intros <-. apply Hfresh. apply elem_of_dom. by eexists.
    + exists a. split; [done|]. split; [done|]. by exists nsq.
  - split; [done|]. by exists a.
Qed.

Lemma heap_play_spec i st st' :
  Heap.play i st = Some st' →
  (∀ l a, Heap.arrays st !! l = Some a → Heap.arrays st' !! l = Some a) ∧
  (Heap.history st' = Heap.history st ∨
   ∃ en', (Heap.squares en' ∉ dom (Heap.arrays st)) ∧
          Heap.history st'
            = take (Heap.currentMove st + 1) (Heap.history st) ++ [en']).
Proof.
  unfold Heap.play. intros Hplay.
  destruct (Heap.history st !! Heap.currentMove st) as [en|]; [|done].
  simpl in Hplay.
  destruct (Heap.handleClick _ _ _ _) as [[σ' call]|] eqn:Hc; [|done].
  simpl in Hplay. injection Hplay as <-.
  apply heap_handleClick_spec in Hc as (Hkeep & a & Ha & Hcall).
  destruct call as [[l' loc]|]; simpl.
  - split; [done|]. right. destruct Hcall as (Hfresh & _).
    by exists {| Heap.squares := l'; Heap.location := loc |}.
  - split; [done|]. by left.
Qed.

Lemma resolve_initial : resolve Heap.initial = Some initial.
Proof. reflexivity. Qed.

Lemma resolve_entry_mono σ σ' en e :
  (∀ l a, σ !! l = Some a → σ' !! l = Some a) →
  resolve_entry σ en = Some e → resolve_entry σ' en = Some e.
Proof.
  unfold resolve_entry. intros Hkeep Hen.
  destruct (σ !! Heap.squares en) as [a|] eqn:Ha; [|done].
  by rewrite (Hkeep _ _ Ha).
Qed.

(** The array-based model is what the store-based one computes, read
    through the references: an event on a store-based state whose
    references all resolve leads to a state that resolves to the result of
    the same event on the resolved state. *)
Lemma resolve_dispatch st s e :
  resolve st = Some s → Heap.dispatch e st ≫= resolve = dispatch e s.
Proof.
  unfold resolve. intros Hres.
  destruct (mapM _ (Heap.history st)) as [h|] eqn:Hh; [|done].
  injection Hres as <-. pose proof Hh as Hall. apply mapM_Some in Hall.
  destruct e as [i|n|]; simpl; [|by rewrite Hh..].
  unfold Heap.play, play, currentSquares; simpl.
  destruct (Heap.history st !! Heap.currentMove st) as [en|] eqn:Hen; simpl.
  - destruct (Forall2_lookup_l _ _ _ _ _ Hall Hen) as (e & He & Hr).
    rewrite He. simpl. unfold resolve_entry in Hr.
    destruct (Heap.arrays st !! Heap.squares en) as [a|] eqn:Ha; [|done].
    injection Hr as <-. simpl.
    rewrite (heap_handleClick_eq _ _ _ _ _ Ha).
    change (xIsNext {| history := h;
                       currentMove := Heap.currentMove st;
                       isAscending := Heap.isAscending st |})
      with (Heap.xIsNext st).
    destruct (handleClick (Heap.xIsNext st) a i) as [[nsq loc]|]; simpl;
      [|by rewrite Hh].
    set (l' := fresh (dom (Heap.arrays st))).
    assert (Heap.arrays st !! l' = None) as Hnone.
    { apply not_elem_of_dom, is_fresh. }
    assert (mapM (resolve_entry (<[l':=nsq]> (Heap.arrays st)))
              (take (Heap.currentMove st + 1) (Heap.history st)
                 ++ [ {| Heap.squares := l'; Heap.location := loc |} ])
            = Some (take (Heap.currentMove st + 1) h
                      ++ [ {| squares := nsq; location := loc |} ]))
      as ->.
    { apply mapM_Some, Forall2_app.
      - apply Forall2_take. eapply Forall2_impl; [done|].
        intros en0 e0. apply resolve_entry_mono. intros l0 a0 Hl0.
        rewrite lookup_insert_ne; [done|]. congruence.
      - constructor; [|constructor].
        unfold resolve_entry; simpl. by rewrite lookup_insert_eq. }
    unfold handlePlay; simpl.
    by rewrite !length_app, !length_take, (Forall2_length _ _ _ Hall).
  - apply Forall2_length in Hall.
    rewrite (lookup_ge_None_2 h); [done|].
    rewrite <- Hall. by apply lookup_ge_None.
Qed.

(** C9: whatever the event, every array present in the store before it is
    present with the same contents after it, in particular the board of
    every history entry; and every entry of the new history is either the
    entry that was at that index before, or an entry whose board is an
    array that did not exist before. *)
Theorem snapshots_never_mutated st e st' :
  Heap.dispatch e st = Some st' →
  (∀ l a, Heap.arrays st !! l = Some a → Heap.arrays st' !! l = Some a) ∧
  (∀ k en a,
     Heap.history st !! k = Some en →
     Heap.arrays st !! Heap.squares en = Some a →
     Heap.arrays st' !! Heap.squares en = Some a) ∧
  (∀ k en',
     Heap.history st' !! k = Some en' →
     Heap.history st !! k = Some en' ∨
     Heap.squares en' ∉ dom (Heap.arrays st)).
Proof.
  intros Hd.
  assert ((∀ l a, Heap.arrays st !! l = Some a →
                  Heap.arrays st' !! l = Some a) ∧
          (Heap.history st' = Heap.history st ∨
           ∃ en', (Heap.squares en' ∉ dom (Heap.arrays st)) ∧
                  Heap.history st'
                    = take (Heap.currentMove st + 1) (Heap.history st)
                        ++ [en'])) as [Hkeep Hhist].
  { destruct e as [i|n|]; simpl in Hd.
    - by apply heap_play_spec in Hd.
    - injection Hd as <-. simpl. auto.
    - injection Hd as <-. simpl. auto. }
  split; [done|]. split; [eauto|].
  intros k en' Hk. destruct Hhist as [Heq|(en0 & Hfresh & Heq)].
  - left. by rewrite <- Heq.
  - rewrite Heq in Hk. apply lookup_app_Some in Hk as [Hk|[_ Hk]].
    + left. by apply lookup_take_Some in Hk as [Hk _].
    + right. by apply list_lookup_singleton_Some in Hk as [_ <-].
Qed.

Lemma snapshots_never_mutated_witness :
  ({[ 0 := replicate 9 Null;
      1 := [Null; Null; Null; Null; X; Null; Null; Null; Null] ]}
     : gmap nat (list cell)) !! 0 = Some (replicate 9 Null).
Proof.
  refine (proj1 (snapshots_never_mutated Heap.initial (Click 4)
           {| Heap.arrays :=
                {[ 0 := replicate 9 Null;
                   1 := [Null; Null; Null; Null; X; Null; Null; Null;
                         Null] ]};
              Heap.history :=
                [ {| Heap.squares := 0; Heap.location := "" |};
                  {| Heap.squares := 1; Heap.location := "(2, 2)" |} ];
              Heap.currentMove := 1;
              Heap.isAscending := true |} _) 0 (replicate 9 Null) _);
    vm_compute; reflexivity.
Defined.

End store.


(** * More on the win evaluator *)

Section win_evaluator_more.
Implicit Types (squares sq : list cell) (t : nat * nat * nat).

Lemma lines_bounds a b c : (a, b, c) ∈ lines → a < b ∧ b < c ∧ c < 9.
Proof.
  intros Ht. unfold lines in Ht.
  repeat (apply elem_of_cons in Ht as [[= -> -> ->]|Ht]; [lia|]).
  by apply elem_of_nil in Ht.
Qed.

(** Everything a result of [calculateWinner] tells about the board. *)
Lemma calculateWinner_line sq w :
  calculateWinner sq = Some w →
  ∃ a b c, (a, b, c) ∈ lines ∧ line w = [a; b; c] ∧ is_mark (player w) ∧
           sq !! a = Some (player w) ∧ sq !! b = Some (player w) ∧
           sq !! c = Some (player w).
Proof.
  intros (k & a & b & c & Hk & (m & Hm & Ha & Hb & Hc) & _ & ->)
    %calculateWinner_from_Some.
  exists a, b, c. simpl. apply array_get_mark in Ha as Hget; [|done].
  rewrite Hget. split; [by eapply list_elem_of_lookup_2|]. by repeat split.
Qed.

Lemma calculateWinner_from_agree ls sq sq' :
  (∀ a b c, (a, b, c) ∈ ls → c < 9 ∧ b < 9 ∧ a < 9) →
  (∀ i, i < 9 → array_get sq i = array_get sq' i) →
  calculateWinner_from ls sq = calculateWinner_from ls sq'.
Proof.
  intros Hls Hagree. induction ls as [|[[a b] c] rest IH]; [done|]. simpl.
  destruct (Hls a b c) as (Hc & Hb & Ha); [left|].
  rewrite !(Hagree a), !(Hagree b), !(Hagree c) by done.
  rewrite IH; [done|]. intros a' b' c' Hin. apply Hls. by right.
Qed.

(** X1: [calculateWinner] reads the slots 0 to 8 and nothing else: two
    arrays, of any lengths, that read the same at these nine indices get the
    same result. *)
Theorem calculateWinner_first_nine sq sq' :
  (∀ i, i < 9 → array_get sq i = array_get sq' i) →
  calculateWinner sq = calculateWinner sq'.
Proof.
  intros Hagree. apply calculateWinner_from_agree; [|done].
  intros a b c Ht. apply lines_bounds in Ht. lia.
Qed.

Lemma calculateWinner_first_nine_witness :
  calculateWinner [X; X; X; Null; O; O; Null; Null; Null; O; O; O]
  = calculateWinner [X; X; X; Null; O; O; Null; Null; Null].
Proof.
  apply calculateWinner_first_nine. intros i Hi.
  do 9 (destruct i as [|i]; [reflexivity|]). lia.
Defined.

Lemma array_get_swap sq i : array_get (swap <$> sq) i = swap (array_get sq i).
Proof.
  unfold array_get. rewrite list_lookup_fmap. by destruct (sq !! i).
Qed.

#[local] Instance swap_inj : Inj (=) (=) swap.
Proof. intros [] []; simpl; congruence. Qed.

Lemma calculateWinner_from_swap ls sq :
  calculateWinner_from ls (swap <$> sq)
  = swap_winner <$> calculateWinner_from ls sq.
Proof.
  induction ls as [|[[a b] c] rest IH]; [done|]. simpl.
  rewrite !array_get_swap, IH.
  assert (truthy (swap (array_get sq a)) = truthy (array_get sq a)) as ->
    by by destruct (array_get sq a).
  rewrite (bool_decide_ext (swap (array_get sq a) = swap (array_get sq b))
             (array_get sq a = array_get sq b))
    by (split; [apply (inj swap)|congruence]).
  rewrite (bool_decide_ext (swap (array_get sq a) = swap (array_get sq c))
             (array_get sq a = array_get sq c))
    by (split; [apply (inj swap)|congruence]).
  by destruct (truthy _ && _ && _).
Qed.

(** X2: the evaluator treats the two marks alike: exchanging [X] and [O] on
    a board exchanges them in the result and leaves the winning triple (or the
    absence of a winner) as it is. *)
Theorem calculateWinner_swap sq :
  calculateWinner (swap <$> sq) = swap_winner <$> calculateWinner sq ∧
  winningSquares (swap <$> sq) = winningSquares sq.
Proof.
  unfold winningSquares, calculateWinner.
  rewrite calculateWinner_from_swap.
  by destruct (calculateWinner_from lines sq).
Qed.

(** Three slots in increasing positions holding [m] make at least three
    cells holding [m]. *)
Lemma marks_three sq m a b c :
  a < b → b < c →
  sq !! a = Some m → sq !! b = Some m → sq !! c = Some m →
  3 ≤ marks m sq.
Proof.
  intros Hab Hbc Ha Hb Hc.
  rewrite <- (take_drop_middle sq c m Hc), marks_app, marks_cons.
  rewrite decide_True by done.
  assert (take c sq !! b = Some m) as Hb' by by rewrite lookup_take_lt.
  assert (take c sq !! a = Some m) as Ha'
    by (rewrite lookup_take_lt; [done|lia]).
  rewrite <- (take_drop_middle (take c sq) b m Hb'), marks_app, marks_cons.
  rewrite decide_True by done.
  assert (take b (take c sq) !! a = Some m) as Ha''
    by by rewrite lookup_take_lt.
  rewrite <- (take_drop_middle _ a m Ha''), marks_app, marks_cons.
  rewrite decide_True by done. lia.
Qed.

End win_evaluator_more.

(** * Rendered board *)

Section rendering.
Implicit Types (st : state) (sq : list cell) (i : nat).

Lemma createBoard_unfold sq :
  createBoard sq
  = [ [renderSquare sq 0; renderSquare sq 1; renderSquare sq 2];
      [renderSquare sq 3; renderSquare sq 4; renderSquare sq 5];
      [renderSquare sq 6; renderSquare sq 7; renderSquare sq 8] ].
Proof. reflexivity. Qed.

Lemma array_get_nine sq :
  length sq = 9 → array_get sq <$> seq 0 9 = sq.
Proof.
  intros Hlen. do 9 (destruct sq as [|? sq]; [done|]).
  by destruct sq.
Qed.

(** X3: [createBoard] lays the board out row by row: three rows of three
    buttons, the button in row [row] and column [col] being the one of square
    [row * 3 + col]; read row after row, the buttons click the indices 0 to 8
    in order, each once, and show the slots 0 to 8 of the array, which for an
    array of nine slots is the array itself. *)
Theorem createBoard_row_major sq :
  length (createBoard sq) = 3 ∧
  Forall (λ boardRow, length boardRow = 3) (createBoard sq) ∧
  (∀ row col, row < 3 → col < 3 →
     createBoard sq !! row ≫= (λ boardRow, boardRow !! col)
     = Some (renderSquare sq (row * 3 + col))) ∧
  btn_click <$> mjoin (createBoard sq) = seq 0 9 ∧
  btn_text <$> mjoin (createBoard sq) = array_get sq <$> seq 0 9 ∧
  (length sq = 9 → btn_text <$> mjoin (createBoard sq) = sq).
Proof.
  rewrite createBoard_unfold. split; [done|].
  split; [repeat (constructor; [reflexivity|]); constructor|].
  split; [|split; [done|split; [done|]]].
  - intros row col Hrow Hcol.
    do 3 (destruct row as [|row];
          [do 3 (destruct col as [|col]; [reflexivity|]); lia|]).
    lia.
  - intros Hlen. transitivity (array_get sq <$> seq 0 9); [reflexivity|].
    by apply array_get_nine.
Qed.

Lemma renderSquare_class sq i :
  btn_class (renderSquare sq i)
  = if bool_decide (i ∈ winningSquares sq)
    then "square winning-square" else "square ".
Proof. unfold renderSquare, Square. simpl. by destruct (bool_decide _). Qed.

(** X4: without a winner no button carries the highlight class.  With a
    winner, the highlighted buttons are those of the three squares of the
    winning triple and no others: exactly three buttons of the rendered board,
    in increasing index order, each showing the winner's mark. *)
Theorem highlight_winning_line sq :
  (calculateWinner sq = None →
     ∀ i, btn_class (renderSquare sq i) = "square ") ∧
  (∀ w, calculateWinner sq = Some w →
     ∃ a b c,
       (a, b, c) ∈ lines ∧ line w = [a; b; c] ∧ is_mark (player w) ∧
       (∀ i, btn_class (renderSquare sq i)
             = if bool_decide (i = a ∨ i = b ∨ i = c)
               then "square winning-square" else "square ") ∧
       filter (λ btn, btn_class btn = "square winning-square")
              (mjoin (createBoard sq))
       = [ {| btn_class := "square winning-square"; btn_click := a;
              btn_text := player w |};
           {| btn_class := "square winning-square"; btn_click := b;
              btn_text := player w |};
           {| btn_class := "square winning-square"; btn_click := c;
              btn_text := player w |} ]).
Proof.
  split.
  - intros Hw i. rewrite renderSquare_class. unfold winningSquares.
    rewrite Hw. rewrite bool_decide_eq_false_2; [done|]. apply not_elem_of_nil.
  - intros w Hw.
    destruct (calculateWinner_line sq w Hw)
      as (a & b & c & Ht & Hline & Hm & Ha & Hb & Hc).
    assert (winningSquares sq = [a; b; c]) as Hws.
    { unfold winningSquares. by rewrite Hw. }
    exists a, b, c. split; [done|]. split; [done|]. split; [done|]. split.
    + intros i. rewrite renderSquare_class, Hws.
      rewrite (bool_decide_ext (i ∈ [a; b; c]) (i = a ∨ i = b ∨ i = c));
        [done|].
      rewrite !elem_of_cons, elem_of_nil. tauto.
    + rewrite createBoard_unfold. unfold renderSquare. rewrite Hws.
      assert (array_get sq a = player w ∧ array_get sq b = player w
              ∧ array_get sq c = player w) as (Hga & Hgb & Hgc).
      { by rewrite !array_get_mark. }
      rewrite <- Hga at 1. rewrite <- Hgb at 1. rewrite <- Hgc at 1.
      clear -Ht. unfold lines in Ht.
      repeat (apply elem_of_cons in Ht as [[= -> -> ->]|Ht];
              [vm_compute; reflexivity|]).
      by apply elem_of_nil in Ht.
Qed.

End rendering.

(** * Course of a game *)

Section game_course.
Implicit Types (st : state) (sq : list cell) (h : list entry) (i k : nat).

Lemma open_prefix_snoc h k e e' :
  open_prefix h → h !! k = Some e → calculateWinner (squares e) = None →
  open_prefix (take (S k) h ++ [e']).
Proof.
  intros Hopen Hk Hw j e0 Hj Hlen.
  pose proof (lookup_lt_Some _ _ _ Hk) as Hlt.
  rewrite length_app, length_take, Nat.min_l in Hlen by lia.
  simpl in Hlen.
  rewrite lookup_app_l, lookup_take_lt in Hj
    by (rewrite ?length_take; lia).
  destruct (decide (j = k)) as [->|Hne]; [congruence|].
  apply (Hopen j e0 Hj). lia.
Qed.

Lemma reachable_open_prefix st : reachable st → open_prefix (history st).
Proof.
  induction 1 as [|st e st' Hreach IH Hoff Hd].
  - intros k e Hk Hlen. simpl in Hlen. lia.
  - destruct e as [i|n|]; simpl in Hd.
    + destruct (decide (st' = st)) as [->|Hne]; [done|].
      destruct (play_changes _ _ _ Hd Hne) as (sq & Hsq & Hw & _ & ->).
      destruct (currentSquares_Some _ _ Hsq) as (en & Hen & <-).
      pose proof (lookup_lt_Some _ _ _ Hen) as Hlt.
      destruct (handlePlay_spec st
                  (array_set i (turn (currentMove st)) (squares en))
                  (caption i) Hlt) as (-> & _).
      by eapply open_prefix_snoc.
    + by injection Hd as <-.
    + by injection Hd as <-.
Qed.

Lemma occupied_le sq : occupied sq ≤ length sq.
Proof. unfold occupied. apply length_filter. Qed.

Lemma occupied_full sq : Null ∉ sq ↔ occupied sq = length sq.
Proof.
  induction sq as [|c sq IH].
  - split; [done|]. intros _. apply not_elem_of_nil.
  - rewrite not_elem_of_cons, occupied_cons, IH. simpl.
    pose proof (occupied_le sq).
    destruct (decide (c = Null)) as [->|Hc].
    + split; [by intros [? _]|lia].
    + split; [intros [_ ->]; lia|]. intros Heq. split; [congruence|lia].
Qed.

(** The winner of a snapshot is the player who made the move leading to
    it. *)
Lemma well_formed_winner st k e w :
  well_formed st → open_prefix (history st) →
  history st !! k = Some e → calculateWinner (squares e) = Some w →
  ∃ k0, k = S k0 ∧ player w = turn k0.
Proof.
  intros (_ & H0 & _ & Halt) Hopen Hk Hw. destruct k as [|k0].
  { rewrite H0 in Hk. injection Hk as <-. by vm_compute in Hw. }
  exists k0. split; [done|].
  destruct (lookup_lt_is_Some_2 (history st) k0) as [e0 He0].
  { apply lookup_lt_Some in Hk. lia. }
  assert (calculateWinner (squares e0) = None) as Hw0.
  { apply (Hopen k0 e0 He0). by apply lookup_lt_Some in Hk. }
  destruct (Halt k0 e0 e He0 Hk) as (i & _ & Hnull & Hsq & _).
  destruct (calculateWinner_line _ _ Hw)
    as (a & b & c & Ht & _ & Hm & Ha & Hb & Hc).
  rewrite Hsq in Ha, Hb, Hc.
  assert (i < length (squares e0)) as Hi by by eapply lookup_lt_Some.
  destruct (decide (i = a)) as [->|Hia].
  { rewrite list_lookup_insert_eq in Ha by done. congruence. }
  destruct (decide (i = b)) as [->|Hib].
  { rewrite list_lookup_insert_eq in Hb by done. congruence. }
  destruct (decide (i = c)) as [->|Hic].
  { rewrite list_lookup_insert_eq in Hc by done. congruence. }
  rewrite list_lookup_insert_ne in Ha, Hb, Hc by done.
  assert (is_Some (calculateWinner (squares e0))) as [w0 Hw0'].
  { apply calculateWinner_is_Some. exists (a, b, c). split; [done|].
    by exists (player w). }
  congruence.
Qed.

(** X5: in a reachable state only the last snapshot of the history can have
    a winner: an entry that has a successor shows no complete triple. *)
Theorem won_snapshot_is_last st k e w :
  reachable st → history st !! k = Some e →
  calculateWinner (squares e) = Some w →
  S k = length (history st).
Proof.
  intros Hreach Hk Hw.
  pose proof (reachable_open_prefix st Hreach k e Hk) as Hopen.
  pose proof (lookup_lt_Some _ _ _ Hk) as Hlt.
  destruct (decide (S k < length (history st))) as [Hlt'|]; [|lia].
  rewrite Hopen in Hw by done. done.
Qed.

Lemma won_snapshot_is_last_witness :
  S 5 = length (history (after [Click 0; Click 1; Click 3; Click 4; Click 6;
                                Jump 2])).
Proof.
  apply (won_snapshot_is_last _ 5
           {| squares := [X; O; Null; X; O; Null; X; Null; Null];
              location := "(1, 3)" |}
           {| player := X; line := [0; 3; 6] |}); [|reflexivity..].
  apply (reachable_step
           (after [Click 0; Click 1; Click 3; Click 4; Click 6]) (Jump 2));
    [|simpl; lia|reflexivity].
  apply (reachable_step (after [Click 0; Click 1; Click 3; Click 4])
           (Click 6)); [|simpl; lia|reflexivity].
  apply (reachable_step (after [Click 0; Click 1; Click 3]) (Click 4));
    [|simpl; lia|reflexivity].
  apply (reachable_step (after [Click 0; Click 1]) (Click 3));
    [|simpl; lia|reflexivity].
  apply (reachable_step (after [Click 0]) (Click 1));
    [|simpl; lia|reflexivity].
  apply (reachable_step initial (Click 0));
    [apply reachable_initial|simpl; lia|reflexivity].
Defined.

Lemma reachable_one : reachable (after [Click 4]).
Proof.
  apply (reachable_step initial (Click 4));
    [apply reachable_initial|simpl; lia|reflexivity].
Qed.

Lemma reachable_won :
  reachable (after [Click 0; Click 1; Click 3; Click 4; Click 6]).
Proof.
  apply (reachable_step (after [Click 0; Click 1; Click 3; Click 4])
           (Click 6)); [|simpl; lia|reflexivity].
  apply (reachable_step (after [Click 0; Click 1; Click 3]) (Click 4));
    [|simpl; lia|reflexivity].
  apply (reachable_step (after [Click 0; Click 1]) (Click 3));
    [|simpl; lia|reflexivity].
  apply (reachable_step (after [Click 0]) (Click 1));
    [|simpl; lia|reflexivity].
  apply (reachable_step initial (Click 0));
    [apply reachable_initial|simpl; lia|reflexivity].
Qed.

Lemma reachable_drawn :
  reachable (after [Click 0; Click 1; Click 2; Click 4; Click 3;
                    Click 5; Click 7; Click 6; Click 8]).
Proof.
  apply (reachable_step (after [Click 0; Click 1; Click 2; Click 4; Click 3;
                                Click 5; Click 7; Click 6]) (Click 8));
    [|simpl; lia|reflexivity].
  apply (reachable_step (after [Click 0; Click 1; Click 2; Click 4; Click 3;
                                Click 5; Click 7]) (Click 6));
    [|simpl; lia|reflexivity].
  apply (reachable_step (after [Click 0; Click 1; Click 2; Click 4; Click 3;
                                Click 5]) (Click 7));
    [|simpl; lia|reflexivity].
  apply (reachable_step (after [Click 0; Click 1; Click 2; Click 4; Click 3])
           (Click 5)); [|simpl; lia|reflexivity].
  apply (reachable_step (after [Click 0; Click 1; Click 2; Click 4])
           (Click 3)); [|simpl; lia|reflexivity].
  apply (reachable_step (after [Click 0; Click 1; Click 2]) (Click 4));
    [|simpl; lia|reflexivity].
  apply (reachable_step (after [Click 0; Click 1]) (Click 2));
    [|simpl; lia|reflexivity].
  apply (reachable_step (after [Click 0]) (Click 1));
    [|simpl; lia|reflexivity].
  apply (reachable_step initial (Click 0));
    [apply reachable_initial|simpl; lia|reflexivity].
Qed.

(** X6: in a reachable state a snapshot with a winner has index at least 5
    (no game is won before the fifth move), and the winner is the player who
    made the move that produced it: [X] at an odd index, [O] at an even
    one. *)
Theorem winner_is_last_mover st k e w :
  reachable st → history st !! k = Some e →
  calculateWinner (squares e) = Some w →
  5 ≤ k ∧ player w = (if Nat.even k then O else X).
Proof.
  intros Hreach Hk Hw.
  pose proof (reachable_well_formed _ Hreach) as Hwf.
  pose proof (reachable_open_prefix _ Hreach) as Hopen.
  destruct (well_formed_winner st k e w Hwf Hopen Hk Hw) as (k0 & -> & Hp).
  destruct (well_formed_counts st (S k0) e Hwf Hk) as (HX & HO & _).
  destruct (calculateWinner_line _ _ Hw)
    as (a & b & c & Ht & _ & _ & Ha & Hb & Hc).
  destruct (lines_bounds a b c Ht) as (Hab & Hbc & _).
  pose proof (marks_three _ _ a b c Hab Hbc Ha Hb Hc) as Hthree.
  rewrite Nat.even_succ, <- Nat.negb_even. rewrite Hp in Hthree |- *.
  unfold turn in *. destruct (Nat.even k0) eqn:Hev; simpl.
  - split; [|done]. rewrite HX in Hthree.
    destruct (decide (5 ≤ S k0)) as [|Hsmall]; [done|]. exfalso.
    assert ((S k0 + 1) / 2 < 3); [|lia].
    apply Nat.Div0.div_lt_upper_bound. lia.
  - split; [|done]. rewrite HO in Hthree.
    destruct (decide (5 ≤ S k0)) as [|Hsmall]; [done|]. exfalso.
    assert (S k0 / 2 < 3); [|lia].
    apply Nat.Div0.div_lt_upper_bound. lia.
Qed.

Lemma winner_is_last_mover_witness :
  5 ≤ 5 ∧ X = (if Nat.even 5 then O else X).
Proof.
  apply (winner_is_last_mover
           (after [Click 0; Click 1; Click 3; Click 4; Click 6]) 5
           {| squares := [X; O; Null; X; O; Null; X; Null; Null];
              location := "(1, 3)" |}
           {| player := X; line := [0; 3; 6] |});
    [apply reachable_won|reflexivity..].
Defined.

Lemma reachable_current st :
  reachable st →
  ∃ en, history st !! currentMove st = Some en ∧
        currentSquares st = Some (squares en) ∧
        board_ok (squares en) ∧ occupied (squares en) = currentMove st.
Proof.
  intros Hwf%reachable_well_formed.
  pose proof Hwf as (Hlt & _ & Hboards & _).
  destruct (lookup_lt_is_Some_2 (history st) (currentMove st) Hlt)
    as [en Hen].
  exists en. split; [done|]. split.
  { unfold currentSquares. by rewrite Hen. }
  split; [by eapply Hboards|].
  by destruct (well_formed_counts st _ en Hwf Hen) as (_ & _ & ?).
Qed.

(** X7: a game has at most nine moves: in a reachable state the history has
    at most ten entries and the pointer is at most 9. *)
Theorem game_length_bounded st :
  reachable st → length (history st) ≤ 10 ∧ currentMove st ≤ 9.
Proof.
  intros Hreach. pose proof (reachable_well_formed _ Hreach) as Hwf.
  pose proof Hwf as (Hlt & _ & Hboards & _).
  assert (∀ k e, history st !! k = Some e → k ≤ 9) as Hbound.
  { intros k e Hk. destruct (Hboards k e Hk) as [Hnine _].
    destruct (well_formed_counts st k e Hwf Hk) as (_ & _ & <-).
    rewrite <- Hnine. apply occupied_le. }
  split.
  - destruct (lookup_lt_is_Some_2 (history st) (length (history st) - 1))
      as [e He]; [lia|].
    pose proof (Hbound _ _ He). lia.
  - destruct (lookup_lt_is_Some_2 (history st) (currentMove st) Hlt)
      as [e He].
    by eapply Hbound.
Qed.

Lemma game_length_bounded_witness :
  length (history (after [Click 0; Click 1; Click 2; Click 4; Click 3;
                          Click 5; Click 7; Click 6; Click 8])) ≤ 10 ∧
  currentMove (after [Click 0; Click 1; Click 2; Click 4; Click 3;
                      Click 5; Click 7; Click 6; Click 8]) ≤ 9.
Proof. apply game_length_bounded, reachable_drawn. Defined.

Lemma status_cases x sq :
  match calculateWinner sq with
  | Some w =>
      (player w = X ∧ status x sq = "Winner: X") ∨
      (player w = O ∧ status x sq = "Winner: O")
  | None =>
      ((Null ∉ sq) ∧ status x sq = "Draw") ∨
      (Null ∈ sq ∧
       status x sq = if x then "Next player: X" else "Next player: O")
  end.
Proof.
  unfold status. destruct (calculateWinner sq) as [w|] eqn:Hw.
  - destruct (calculateWinner_player _ _ Hw) as [-> | ->]; auto.
  - destruct (every_Boolean sq) eqn:Hevery.
    + left. by apply every_Boolean_spec in Hevery.
    + right. split; [|by destruct x].
      destruct (decide (Null ∈ sq)) as [|Hnot]; [done|].
      apply every_Boolean_spec in Hnot. congruence.
Qed.

(** X8: the status line of a board, of any contents, is one of five texts,
    and it tells whether the game goes on: in a reachable state some click on
    one of the nine squares changes the state exactly when the status names a
    next player; when it names a winner or a draw every such click leaves the
    state as it is. *)
Theorem status_tells_progress :
  (∀ x sq, status x sq ∈ [ "Winner: X"; "Winner: O"; "Draw";
                            "Next player: X"; "Next player: O" ]) ∧
  (∀ st, reachable st →
     ((∃ i st', i < 9 ∧ play i st = Some st' ∧ st' ≠ st) ↔
      gameStatus st = Some "Next player: X" ∨
      gameStatus st = Some "Next player: O") ∧
     (gameStatus st ∈ [ Some "Winner: X"; Some "Winner: O"; Some "Draw" ] →
      ∀ i, i < 9 → play i st = Some st)).
Proof.
  split.
  { intros x sq. pose proof (status_cases x sq) as Hcases.
    destruct (calculateWinner sq); destruct Hcases as [[_ ->]|[_ ->]];
      try destruct x; set_solver. }
  intros st Hreach.
  destruct (reachable_current st Hreach) as (en & Hen & Hsq & Hok & _).
  pose proof (status_cases (xIsNext st) (squares en)) as Hcases.
  unfold gameStatus. rewrite Hsq. simpl.
  assert ((∃ i st', i < 9 ∧ play i st = Some st' ∧ st' ≠ st) ↔
          calculateWinner (squares en) = None ∧ Null ∈ squares en) as Hiff.
  { split.
    - intros (i & st' & Hi & Hplay & Hne).
      destruct (play_changes _ _ _ Hplay Hne) as (sq & Hsq' & Hw & Hf & _).
      rewrite Hsq in Hsq'. injection Hsq' as <-. split; [done|].
      eapply list_elem_of_lookup_2. by eapply board_ok_falsy.
    - intros [Hw (i & Hi)%list_elem_of_lookup_1].
      assert (i < 9) as Hlt.
      { destruct Hok as [<- _]. by eapply lookup_lt_Some. }
      exists i, (handlePlay (array_set i (turn (currentMove st)) (squares en))
                            (caption i) st).
      split; [done|]. split.
      + apply (play_handlePlay st (squares en)); [done|].
        apply handleClick_Some. unfold array_get. by rewrite Hi.
      + apply handlePlay_changes. by eapply lookup_lt_Some. }
  split.
  - rewrite Hiff. destruct (calculateWinner (squares en)) as [w|].
    + split; [by intros [[=] _]|].
      destruct Hcases as [[_ ->]|[_ ->]]; by intros [[=]|[=]].
    + destruct Hcases as [[Hfull ->]|[Hempty ->]].
      * split; [tauto|]. by intros [[=]|[=]].
      * split; [|done]. intros _. destruct (xIsNext st); auto.
  - intros Hterminal i Hi.
    destruct (decide (play i st = Some st)) as [|Hchanged]; [done|].
    exfalso. assert (calculateWinner (squares en) = None
                     ∧ Null ∈ squares en) as [Hw Hempty].
    { apply Hiff. destruct (well_formed_dispatch_total st (Click i))
        as [st' Hst']; [by apply reachable_well_formed|].
      exists i, st'. simpl in Hst'. split; [done|]. split; [done|].
      congruence. }
    rewrite Hw in Hcases. destruct Hcases as [[Hfull _]|[_ Hstatus]]; [done|].
    rewrite Hstatus in Hterminal.
    destruct (xIsNext st);
      repeat (apply elem_of_cons in Hterminal as [[=]|Hterminal]);
      by apply elem_of_nil in Hterminal.
Qed.

(** X9: in a reachable state the draw message is shown only when the
    pointer is 9, and at pointer 9 the status is either the draw message or a
    win of [X], who made the ninth move. *)
Theorem draw_needs_nine_moves st :
  reachable st →
  (gameStatus st = Some "Draw" → currentMove st = 9) ∧
  (currentMove st = 9 →
   gameStatus st = Some "Draw" ∨ gameStatus st = Some "Winner: X").
Proof.
  intros Hreach.
  destruct (reachable_current st Hreach) as (en & Hen & Hsq & Hok & Hocc).
  pose proof (status_cases (xIsNext st) (squares en)) as Hcases.
  unfold gameStatus. rewrite Hsq. simpl.
  destruct Hok as [Hnine _]. split.
  - intros [= Hdraw].
    destruct (calculateWinner (squares en)) as [w|].
    { destruct Hcases as [[_ Hs]|[_ Hs]]; by rewrite Hs in Hdraw. }
    destruct Hcases as [[Hfull _]|[_ Hs]].
    + apply occupied_full in Hfull. lia.
    + rewrite Hs in Hdraw. by destruct (xIsNext st).
  - intros Hp.
    destruct (calculateWinner (squares en)) as [w|] eqn:Hw.
    + right.
      destruct (well_formed_winner st _ en w
                  (reachable_well_formed _ Hreach)
                  (reachable_open_prefix _ Hreach) Hen Hw)
        as (k0 & Hk0 & Hplayer).
      assert (k0 = 8) as -> by lia. change (turn 8) with X in Hplayer.
      destruct Hcases as [[_ ->]|[Hplayer' _]]; [done|congruence].
    + left. destruct Hcases as [[_ ->]|[Hempty _]]; [done|].
      exfalso. assert (Null ∉ squares en) as Hfull; [|done].
      apply occupied_full. lia.
Qed.

Lemma draw_needs_nine_moves_witness :
  (gameStatus (after [Click 0; Click 1; Click 2; Click 4; Click 3;
                      Click 5; Click 7; Click 6; Click 8]) = Some "Draw" →
   currentMove (after [Click 0; Click 1; Click 2; Click 4; Click 3;
                       Click 5; Click 7; Click 6; Click 8]) = 9) ∧
  (currentMove (after [Click 0; Click 1; Click 2; Click 4; Click 3;
                       Click 5; Click 7; Click 6; Click 8]) = 9 →
   gameStatus (after [Click 0; Click 1; Click 2; Click 4; Click 3;
                      Click 5; Click 7; Click 6; Click 8]) = Some "Draw" ∨
   gameStatus (after [Click 0; Click 1; Click 2; Click 4; Click 3;
                      Click 5; Click 7; Click 6; Click 8])
   = Some "Winner: X").
Proof. apply draw_needs_nine_moves, reachable_drawn. Defined.

(** X10: time travel loses nothing that cannot be replayed.  In a reachable
    state, for every history index [k] that has a successor there is a square
    (the one the successor's caption names, empty at [k]) such that jumping
    to [k] and clicking that square gives back the history up to index
    [k + 1], entry for entry, with the pointer on [k + 1]; the entries after
    it are dropped. *)
Theorem replay_restores_entry st k e e' :
  reachable st → history st !! k = Some e → history st !! S k = Some e' →
  ∃ i, i < 9 ∧ squares e !! i = Some Null ∧ location e' = caption i ∧
       play i (jumpTo k st)
       = Some {| history := take (S (S k)) (history st);
                 currentMove := S k;
                 isAscending := isAscending st |}.
Proof.
  intros Hreach Hk HSk.
  pose proof (reachable_well_formed _ Hreach) as (_ & _ & Hboards & Halt).
  pose proof (reachable_open_prefix _ Hreach k e Hk) as Hopen.
  destruct (Halt k e e' Hk HSk) as (i & Hi & Hnull & Hsq & Hloc).
  exists i. split; [done|]. split; [done|]. split; [done|].
  assert (currentSquares (jumpTo k st) = Some (squares e)) as Hcur.
  { unfold currentSquares, jumpTo; simpl. by rewrite Hk. }
  rewrite (play_handlePlay (jumpTo k st) (squares e) i
             (<[i:=turn k]> (squares e)) (caption i) Hcur).
  - f_equal. unfold handlePlay, jumpTo; simpl.
    assert (take (k + 1) (history st)
              ++ [ {| squares := <[i:=turn k]> (squares e);
                      location := caption i |} ]
            = take (S (S k)) (history st)) as ->.
    { rewrite (take_S_r _ (S k) e' HSk), Nat.add_1_r. do 2 f_equal.
      destruct e' as [sq' loc']; simpl in *. by subst. }
    f_equal. rewrite length_take.
    apply lookup_lt_Some in HSk. lia.
  - apply handleClick_Some. split; [|split; [|split; [|done]]].
    + apply Hopen. by apply lookup_lt_Some in HSk.
    + unfold array_get. by rewrite Hnull.
    + rewrite array_set_in_range by by eapply lookup_lt_Some. done.
Qed.

Lemma replay_restores_entry_witness :
  ∃ i, i < 9 ∧
       [X; Null; Null; Null; Null; Null; Null; Null; Null] !! i = Some Null ∧
       "(2, 2)" = caption i ∧
       play i (jumpTo 1 (after [Click 0; Click 4; Click 8]))
       = Some {| history :=
                   take 3 (history (after [Click 0; Click 4; Click 8]));
                 currentMove := 2;
                 isAscending := true |}.
Proof.
  apply (replay_restores_entry (after [Click 0; Click 4; Click 8]) 1
           {| squares := [X; Null; Null; Null; Null; Null; Null; Null; Null];
              location := "(1, 1)" |}
           {| squares := [X; Null; Null; Null; O; Null; Null; Null; Null];
              location := "(2, 2)" |}); [|reflexivity..].
  apply (reachable_step (after [Click 0; Click 4]) (Click 8));
    [|simpl; lia|reflexivity].
  apply (reachable_step (after [Click 0]) (Click 4));
    [|simpl; lia|reflexivity].
  apply (reachable_step initial (Click 0));
    [apply reachable_initial|simpl; lia|reflexivity].
Defined.

(** X11: marks are never moved or removed: in a reachable state a mark that
    a snapshot shows on a cell is shown on that cell by every later snapshot
    of the history. *)
Theorem marks_persist st j k e e' i m :
  reachable st → j ≤ k →
  history st !! j = Some e → history st !! k = Some e' →
  is_mark m → squares e !! i = Some m → squares e' !! i = Some m.
Proof.
  intros Hreach Hjk Hj Hk Hm Hi.
  pose proof (reachable_well_formed _ Hreach) as (_ & _ & _ & Halt).
  revert e' Hk. induction Hjk as [|k Hjk IH]; intros e' Hk.
  - by simplify_eq.
  - destruct (lookup_lt_is_Some_2 (history st) k) as [ek Hek].
    { apply lookup_lt_Some in Hk. lia. }
    destruct (Halt k ek e' Hek Hk) as (i0 & _ & Hnull & -> & _).
    rewrite list_lookup_insert_ne; [by apply IH|].
    intros ->. rewrite (IH ek Hek) in Hnull.
    destruct Hm as [-> | ->]; done.
Qed.

Lemma marks_persist_witness :
  [X; O; Null; X; O; Null; X; Null; Null] !! 1 = Some O.
Proof.
  apply (marks_persist
           (after [Click 0; Click 1; Click 3; Click 4; Click 6]) 2 5
           {| squares := [X; O; Null; Null; Null; Null; Null; Null; Null];
              location := "(2, 1)" |}
           {| squares := [X; O; Null; X; O; Null; X; Null; Null];
              location := "(1, 3)" |} 1 O);
    [apply reachable_won|lia|reflexivity|reflexivity|by right|reflexivity].
Defined.

(** X17: a move can complete more than one triple, but only through the cell
    it fills.  In a reachable state, every triple that is complete on a
    snapshot with a predecessor contains the cell that was empty in the
    predecessor and filled by the move, and carries the mover's mark; so all
    complete triples of a snapshot meet in one cell and belong to one
    player, and [calculateWinner] reports the first of them. *)
Theorem complete_triples_meet st k e e' :
  reachable st → history st !! k = Some e → history st !! S k = Some e' →
  ∃ i, squares e !! i = Some Null ∧
       squares e' !! i = Some (turn k) ∧
       ∀ a b c, (a, b, c) ∈ lines → three_in_a_row (squares e') (a, b, c) →
                (i = a ∨ i = b ∨ i = c) ∧
                squares e' !! a = Some (turn k) ∧
                squares e' !! b = Some (turn k) ∧
                squares e' !! c = Some (turn k).
Proof.
  intros Hreach Hk HSk.
  pose proof (reachable_well_formed _ Hreach) as (_ & _ & _ & Halt).
  pose proof (reachable_open_prefix _ Hreach k e Hk) as Hopen.
  destruct (Halt k e e' Hk HSk) as (i & _ & Hnull & Hsq & _).
  assert (i < length (squares e)) as Hi by by eapply lookup_lt_Some.
  assert (squares e' !! i = Some (turn k)) as Hat.
  { rewrite Hsq. by apply list_lookup_insert_eq. }
  exists i. split; [done|]. split; [done|].
  intros a b c Ht (m & Hm & Ha & Hb & Hc).
  assert (i = a ∨ i = b ∨ i = c) as Hmeet.
  { destruct (decide (i = a)); [tauto|]. destruct (decide (i = b)); [tauto|].
    destruct (decide (i = c)); [tauto|]. exfalso.
    rewrite Hsq in Ha, Hb, Hc.
    rewrite list_lookup_insert_ne in Ha, Hb, Hc by done.
    assert (is_Some (calculateWinner (squares e))) as [w Hw].
    { apply calculateWinner_is_Some. exists (a, b, c). split; [done|].
      by exists m. }
    rewrite Hopen in Hw; [done|]. by apply lookup_lt_Some in HSk. }
  split; [done|].
  assert (m = turn k) as ->; [|done].
  destruct Hmeet as [->|[->| ->]]; congruence.
Qed.

Lemma complete_triples_meet_witness :
  ∃ i, [Null; X; X; X; O; O; X; O; O] !! i = Some Null ∧
       [X; X; X; X; O; O; X; O; O] !! i = Some (turn 8) ∧
       ∀ a b c, (a, b, c) ∈ lines →
                three_in_a_row [X; X; X; X; O; O; X; O; O] (a, b, c) →
                (i = a ∨ i = b ∨ i = c) ∧
                [X; X; X; X; O; O; X; O; O] !! a = Some (turn 8) ∧
                [X; X; X; X; O; O; X; O; O] !! b = Some (turn 8) ∧
                [X; X; X; X; O; O; X; O; O] !! c = Some (turn 8).
Proof.
  apply (complete_triples_meet
           (after [Click 1; Click 4; Click 2; Click 5; Click 3; Click 7;
                   Click 6; Click 8; Click 0]) 8
           {| squares := [Null; X; X; X; O; O; X; O; O];
              location := "(3, 3)" |}
           {| squares := [X; X; X; X; O; O; X; O; O];
              location := "(1, 1)" |}); [|reflexivity..].
  apply (reachable_step
           (after [Click 1; Click 4; Click 2; Click 5; Click 3; Click 7;
                   Click 6; Click 8]) (Click 0)); [|simpl; lia|reflexivity].
  apply (reachable_step
           (after [Click 1; Click 4; Click 2; Click 5; Click 3; Click 7;
                   Click 6]) (Click 8)); [|simpl; lia|reflexivity].
  apply (reachable_step
           (after [Click 1; Click 4; Click 2; Click 5; Click 3; Click 7])
           (Click 6)); [|simpl; lia|reflexivity].
  apply (reachable_step (after [Click 1; Click 4; Click 2; Click 5; Click 3])
           (Click 7)); [|simpl; lia|reflexivity].
  apply (reachable_step (after [Click 1; Click 4; Click 2; Click 5])
           (Click 3)); [|simpl; lia|reflexivity].
  apply (reachable_step (after [Click 1; Click 4; Click 2]) (Click 5));
    [|simpl; lia|reflexivity].
  apply (reachable_step (after [Click 1; Click 4]) (Click 2));
    [|simpl; lia|reflexivity].
  apply (reachable_step (after [Click 1]) (Click 4));
    [|simpl; lia|reflexivity].
  apply (reachable_step initial (Click 1));
    [apply reachable_initial|simpl; lia|reflexivity].
Defined.

End game_course.

(** * Move list and page events *)

Section move_list.
Implicit Types (st : state) (sq : list cell) (i j k n p : nat).

Lemma moves_keys st : key <$> moves st = seq 0 (length (history st)).
Proof.
  apply list_eq. intros j. unfold moves.
  rewrite list_lookup_fmap, list_lookup_imap.
  destruct (history st !! j) as [e|] eqn:Hj; simpl.
  - symmetry. apply lookup_seq. split; [done|]. by eapply lookup_lt_Some.
  - symmetry. apply lookup_seq_ge. by apply lookup_ge_None.
Qed.

Lemma moves_bold st it :
  it ∈ moves st → bold it = bool_decide (key it = currentMove st).
Proof. by intros (j & e & -> & _)%elem_of_lookup_imap. Qed.

Lemma filter_bold_keys p (l : list item) :
  (∀ it, it ∈ l → bold it = bool_decide (key it = p)) →
  length (filter (λ it, bold it = true) l)
  = length (filter (λ k, k = p) (key <$> l)).
Proof.
  induction l as [|it l IH]; intros Hbold; [done|].
  rewrite fmap_cons, !filter_cons.
  rewrite (Hbold it) by left.
  assert (length (filter (λ it, bold it = true) l)
          = length (filter (λ k, k = p) (key <$> l))) as Hrec.
  { apply IH. intros it' Hin. apply Hbold. by right. }
  destruct (decide (key it = p)) as [Heq|Hne].
  - rewrite bool_decide_eq_true_2 by done.
    rewrite decide_True by done. simpl. by rewrite Hrec.
  - rewrite bool_decide_eq_false_2 by done.
    rewrite decide_False by done. done.
Qed.

Lemma filter_seq_eq p n :
  length (filter (λ k, k = p) (seq 0 n)) = if decide (p < n) then 1 else 0.
Proof.
  induction n as [|n IH]; [by destruct (decide (p < 0)); [lia|]|].
  rewrite seq_S, filter_app, length_app, IH. simpl.
  rewrite filter_cons, filter_nil.
  destruct (decide (n = p)) as [->|Hne]; simpl;
    repeat case_decide; lia.
Qed.

(** X12: the move list has one item per history entry, keyed 0, 1, 2, ... in
    history order.  The list shown holds the same items: in ascending order
    the item at position [j] is the one of history index [j], in descending
    order it is the one of index [length - 1 - j].  Exactly one shown item is
    bold when the pointer is an existing history index (the item whose key is
    the pointer), and none otherwise. *)
Theorem move_list_shape st :
  key <$> moves st = seq 0 (length (history st)) ∧
  displayedMoves st ≡ₚ moves st ∧
  (∀ j, j < length (history st) →
     displayedMoves st !! j
     = moves st !! (if isAscending st then j
                    else length (history st) - 1 - j)) ∧
  (∀ it, it ∈ displayedMoves st →
     (bold it = true ↔ key it = currentMove st)) ∧
  length (filter (λ it, bold it = true) (displayedMoves st))
  = (if decide (currentMove st < length (history st)) then 1 else 0).
Proof.
  assert (length (moves st) = length (history st)) as Hlen.
  { unfold moves. apply length_imap. }
  split; [apply moves_keys|]. split; [|split; [|split]].
  - unfold displayedMoves. destruct (isAscending st); [done|].
    apply reverse_Permutation.
  - intros j Hj. unfold displayedMoves. destruct (isAscending st); [done|].
    rewrite reverse_lookup by lia. rewrite Hlen. f_equal. lia.
  - intros it Hin.
    assert (it ∈ moves st) as Hin'.
    { unfold displayedMoves in Hin. destruct (isAscending st); [done|].
      by apply elem_of_reverse. }
    rewrite (moves_bold st it Hin'). apply bool_decide_eq_true.
  - assert (length (filter (λ it, bold it = true) (displayedMoves st))
            = length (filter (λ it, bold it = true) (moves st))) as ->.
    { unfold displayedMoves. destruct (isAscending st); [done|].
      by rewrite filter_reverse, length_reverse. }
    rewrite (filter_bold_keys (currentMove st)) by apply moves_bold.
    rewrite moves_keys. apply filter_seq_eq.
Qed.

(** X13: a reachable state renders, and the handlers the rendered page
    installs are the events called offered: the squares of [createBoard]
    click exactly the indices below 9 and the buttons of the move list jump
    exactly to the existing history indices.  Each of these events, and the
    sort toggle, yields a next state, which is reachable again; so no
    sequence of events of the page ever reaches a state that fails to
    render. *)
Theorem page_events_safe st :
  reachable st →
  ∃ sq, currentSquares st = Some sq ∧
        (∀ i, offered st (Click i)
              ↔ i ∈ btn_click <$> mjoin (createBoard sq)) ∧
        (∀ n, offered st (Jump n) ↔ n ∈ key <$> displayedMoves st) ∧
        (∀ e, offered st e →
              ∃ st', dispatch e st = Some st' ∧ reachable st' ∧
                     is_Some (currentSquares st')).
Proof.
  intros Hreach.
  pose proof (reachable_well_formed _ Hreach) as Hwf.
  destruct (reachable_current st Hreach) as (en & _ & Hsq & _).
  exists (squares en). split; [done|]. split; [|split].
  - intros i. rewrite createBoard_unfold. simpl.
    change [0; 1; 2; 3; 4; 5; 6; 7; 8] with (seq 0 9).
    rewrite elem_of_seq. lia.
  - intros n. simpl.
    assert (n ∈ key <$> displayedMoves st ↔ n ∈ key <$> moves st) as ->.
    { unfold displayedMoves. destruct (isAscending st); [done|].
      by rewrite fmap_reverse, elem_of_reverse. }
    rewrite moves_keys, elem_of_seq. lia.
  - intros e Hoff.
    destruct (well_formed_dispatch_total st e Hwf) as [st' Hst'].
    assert (reachable st') as Hreach' by by eapply reachable_step.
    exists st'. split; [done|]. split; [done|].
    destruct (reachable_current st' Hreach') as (en' & _ & -> & _).
    by eexists.
Qed.

Lemma page_events_safe_witness :
  ∃ sq, currentSquares (after [Click 4]) = Some sq ∧
        (∀ i, offered (after [Click 4]) (Click i)
              ↔ i ∈ btn_click <$> mjoin (createBoard sq)) ∧
        (∀ n, offered (after [Click 4]) (Jump n)
              ↔ n ∈ key <$> displayedMoves (after [Click 4])) ∧
        (∀ e, offered (after [Click 4]) e →
              ∃ st', dispatch e (after [Click 4]) = Some st' ∧
                     reachable st' ∧ is_Some (currentSquares st')).
Proof. apply page_events_safe, reachable_one. Defined.

Lemma caption_inj i j : i < 9 → j < 9 → caption i = caption j → i = j.
Proof.
  intros Hi Hj Heq.
  do 9 (destruct i as [|i];
        [do 9 (destruct j as [|j]; [by vm_compute in Heq|]); lia|]).
  lia.
Qed.

(** X18: the move list tells which square each move took.  In a reachable
    state, the entry after history index [k] differs from the one at [k] by
    the mover's mark on one cell [i] of the nine; its location is the caption
    of [i] and of no other cell; and its item in the move list reads
    "Go to move #" followed by the index and the caption in a further pair of
    parentheses. *)
Theorem caption_identifies_move st k e e' :
  reachable st → history st !! k = Some e → history st !! S k = Some e' →
  ∃ i, i < 9 ∧ squares e' = <[i:=turn k]> (squares e) ∧
       location e' = caption i ∧
       (∀ j, j < 9 → caption j = location e' → j = i) ∧
       description <$> moves st !! S k
       = Some ("Go to move #" +:+ pretty (S k)
                 +:+ " (" +:+ caption i +:+ ")").
Proof.
  intros Hreach Hk HSk.
  pose proof (reachable_well_formed _ Hreach) as (_ & _ & _ & Halt).
  destruct (Halt k e e' Hk HSk) as (i & Hi & _ & Hsq & Hloc).
  exists i. split; [done|]. split; [done|]. split; [done|]. split.
  - intros j Hj Hcap. apply caption_inj; [done..|]. congruence.
  - unfold moves. rewrite list_lookup_imap, HSk. simpl. by rewrite Hloc.
Qed.

Lemma caption_identifies_move_witness :
  ∃ i, i < 9 ∧
       [X; Null; Null; Null; O; Null; Null; Null; Null]
       = <[i:=turn 1]> [X; Null; Null; Null; Null; Null; Null; Null; Null] ∧
       "(2, 2)" = caption i ∧
       (∀ j, j < 9 → caption j = "(2, 2)" → j = i) ∧
       description <$> moves (after [Click 0; Click 4]) !! 2
       = Some ("Go to move #" +:+ pretty 2 +:+ " (" +:+ caption i +:+ ")").
Proof.
  apply (caption_identifies_move (after [Click 0; Click 4]) 1
           {| squares := [X; Null; Null; Null; Null; Null; Null; Null; Null];
              location := "(1, 1)" |}
           {| squares := [X; Null; Null; Null; O; Null; Null; Null; Null];
              location := "(2, 2)" |}); [|reflexivity..].
  apply (reachable_step (after [Click 0]) (Click 4));
    [|simpl; lia|reflexivity].
  apply (reachable_step initial (Click 0));
    [apply reachable_initial|simpl; lia|reflexivity].
Defined.

End move_list.

(** * Clicks on arbitrary arrays *)

Section any_click.
Implicit Types (sq nsq : list cell) (i j : nat).

Lemma array_set_spec i v sq :
  is_array_index i →
  array_get (array_set i v sq) i = v ∧
  (∀ j, j ≠ i → array_get (array_set i v sq) j = array_get sq j) ∧
  length (array_set i v sq) = length sq `max` S i.
Proof.
  intros Hindex. unfold array_set, array_get.
  destruct (decide (i < length sq)) as [Hlt|Hge].
  - rewrite list_lookup_insert_eq, length_insert by done.
    split; [done|]. split; [|lia].
    intros j Hj. by rewrite list_lookup_insert_ne.
  - rewrite decide_True by done.
    rewrite !length_app, length_replicate. simpl. split; [|split; [|lia]].
    + rewrite lookup_app_r, lookup_app_r by (rewrite ?length_replicate; lia).
      rewrite length_replicate. by rewrite Nat.sub_diag.
    + intros j Hj. destruct (decide (j < length sq)) as [Hj'|Hj'].
      { by rewrite lookup_app_l. }
      rewrite (lookup_ge_None_2 sq j) by lia. rewrite lookup_app_r by lia.
      destruct (decide (j < i)) as [Hji|Hji].
      * rewrite lookup_app_l by (rewrite length_replicate; lia).
        rewrite lookup_replicate_2 by lia. done.
      * rewrite lookup_ge_None_2; [done|].
        rewrite length_app, length_replicate. simpl. lia.
Qed.

(** X14: whatever the array, and for every array index [i] (up to
    [2^32 - 2], also past the end of the array), a click that reaches
    [onPlay] found no winner and no mark at [i], and hands over an array that
    reads the mover's mark at [i] and reads as the clicked array at every
    other index; its length is the old length, or [i + 1] when [i] was past
    the end. *)
Theorem handleClick_writes_one_slot x sq i nsq loc :
  is_array_index i →
  handleClick x sq i = Some (nsq, loc) →
  calculateWinner sq = None ∧ ¬ is_mark (array_get sq i) ∧
  array_get nsq i = (if x then X else O) ∧
  (∀ j, j ≠ i → array_get nsq j = array_get sq j) ∧
  length nsq = length sq `max` S i.
Proof.
  intros Hindex (Hw & Hf & -> & _)%handleClick_Some.
  split; [done|]. split.
  { rewrite <- truthy_is_mark. congruence. }
  by apply array_set_spec.
Qed.

Lemma handleClick_writes_one_slot_witness :
  calculateWinner [X; Null; O] = None ∧ ¬ is_mark (array_get [X; Null; O] 5) ∧
  array_get [X; Null; O; Undefined; Undefined; O] 5 = O ∧
  (∀ j, j ≠ 5 →
     array_get [X; Null; O; Undefined; Undefined; O] j
     = array_get [X; Null; O] j) ∧
  length [X; Null; O; Undefined; Undefined; O] = length [X; Null; O] `max` 6.
Proof.
  apply (handleClick_writes_one_slot false [X; Null; O] 5
           [X; Null; O; Undefined; Undefined; O] "(3, 2)");
    [unfold is_array_index; lia|reflexivity].
Defined.

End any_click.

(** * Store model: references *)

Section store_references.
Implicit Types (σ : gmap nat (list cell)) (st : Heap.state) (s : state).

Lemma resolve_Some st s :
  resolve st = Some s →
  Forall2 (λ en e, resolve_entry (Heap.arrays st) en = Some e)
          (Heap.history st) (history s) ∧
  currentMove s = Heap.currentMove st ∧
  isAscending s = Heap.isAscending st.
Proof.
  unfold resolve. intros Hres.
  destruct (mapM _ (Heap.history st)) as [h|] eqn:Hh; [|done].
  injection Hres as <-. by apply mapM_Some in Hh.
Qed.

(** A store-based step from a state that resolves leads to a state that
    resolves, to the result of the array-based step. *)
Lemma heap_dispatch_resolves st s e st' :
  resolve st = Some s → Heap.dispatch e st = Some st' →
  ∃ s', resolve st' = Some s' ∧ dispatch e s = Some s'.
Proof.
  intros Hres Hd. pose proof (resolve_dispatch st s e Hres) as Hsim.
  rewrite Hd in Hsim. simpl in Hsim.
  assert (is_Some (dispatch e s)) as [s' Hs'].
  { destruct e as [i|n|]; simpl; [|by eexists..].
    destruct (resolve_Some st s Hres) as (Hall & Hp & _).
    unfold play, currentSquares. simpl in Hd. unfold Heap.play in Hd.
    destruct (Heap.history st !! Heap.currentMove st) as [en|] eqn:Hen;
      [|done].
    destruct (Forall2_lookup_l _ _ _ _ _ Hall Hen) as (e & He & _).
    rewrite Hp, He. by eexists. }
  exists s'. by rewrite Hsim.
Qed.

(** X15: the store-based handlers and the array-based ones compute the same
    game: from a store-based state whose references all resolve, a sequence
    of events either fails in both models (the state does not render) or
    leads to a store-based state that resolves to the array-based result. *)
Theorem store_run_refines es st s :
  resolve st = Some s → Heap.run es st ≫= resolve = run es s.
Proof.
  revert st s. induction es as [|e es IH]; intros st s Hres; [done|].
  simpl. destruct (Heap.dispatch e st) as [st'|] eqn:Hd; simpl.
  - destruct (heap_dispatch_resolves st s e st' Hres Hd)
      as (s' & Hres' & ->).
    simpl. by apply IH.
  - pose proof (resolve_dispatch st s e Hres) as Hsim.
    rewrite Hd in Hsim. simpl in Hsim. by rewrite <- Hsim.
Qed.

Lemma store_run_refines_witness :
  Heap.run [Click 0; Click 4; Jump 0; Click 4; ToggleSort] Heap.initial
    ≫= resolve
  = run [Click 0; Click 4; Jump 0; Click 4; ToggleSort] initial.
Proof. apply store_run_refines. reflexivity. Defined.

(** What a store-based click does to store and history. *)
Lemma heap_play_cases i st st' :
  Heap.play i st = Some st' →
  st' = Heap.with_arrays (Heap.arrays st) st ∨
  ∃ l' nsq loc,
    (l' ∉ dom (Heap.arrays st)) ∧
    Heap.arrays st' = <[l':=nsq]> (Heap.arrays st) ∧
    Heap.history st'
    = take (Heap.currentMove st + 1) (Heap.history st)
        ++ [ {| Heap.squares := l'; Heap.location := loc |} ].
Proof.
  unfold Heap.play. intros Hplay.
  destruct (Heap.history st !! Heap.currentMove st) as [en|]; [|done].
  simpl in Hplay.
  destruct (Heap.handleClick _ _ _ _) as [[σ' call]|] eqn:Hc; [|done].
  simpl in Hplay. injection Hplay as <-.
  apply heap_handleClick_spec in Hc as (_ & a & _ & Hcall).
  destruct call as [[l' loc]|].
  - right. destruct Hcall as (Hfresh & nsq & _ & ->).
    by exists l', nsq, loc.
  - left. by destruct Hcall as [_ ->].
Qed.

(** X16: snapshots never share an array.  In every state the store-based
    model reaches, whatever indices were clicked or jumped to, the entries
    of the history refer to pairwise different arrays, all of them present
    in the store; so the state resolves, and writing to the board of one
    entry could not change another. *)
Theorem snapshots_not_aliased st :
  Heap.reachable st →
  NoDup (Heap.squares <$> Heap.history st) ∧
  (∀ en, en ∈ Heap.history st →
         is_Some (Heap.arrays st !! Heap.squares en)) ∧
  is_Some (resolve st).
Proof.
  intros Hreach.
  assert (NoDup (Heap.squares <$> Heap.history st) ∧
          ∀ en, en ∈ Heap.history st →
                is_Some (Heap.arrays st !! Heap.squares en)) as [Hnd Hin].
  { induction Hreach as [|st e st' _ [IHnd IHin] Hd].
    - split; [apply NoDup_singleton|].
      intros en ->%list_elem_of_singleton. by eexists.
    - destruct e as [i|n|]; simpl in Hd;
        [|by injection Hd as <-..].
      destruct (heap_play_cases i st st' Hd)
        as [->|(l' & nsq & loc & Hfresh & Harr & Hhist)]; [done|].
      rewrite Hhist, Harr. split.
      + rewrite fmap_app. apply NoDup_app. split; [|split].
        * rewrite fmap_take. eapply sublist_NoDup; [done|].
          apply sublist_take.
        * intros l (en & -> & Hen%elem_of_take)%list_elem_of_fmap.
          destruct Hen as (k & Hk & _).
          intros Heq%list_elem_of_singleton. simpl in Heq. apply Hfresh.
          rewrite <- Heq. apply elem_of_dom, IHin.
          by eapply list_elem_of_lookup_2.
        * apply NoDup_singleton.
      + intros en [Hen%elem_of_take | ->%list_elem_of_singleton]
          %elem_of_app.
        * destruct Hen as (k & Hk & _).
          destruct (IHin en) as [a Ha]; [by eapply list_elem_of_lookup_2|].
          exists a. rewrite lookup_insert_ne; [done|].
          intros Heq. apply Hfresh. rewrite Heq.
          apply elem_of_dom. by eexists.
        * simpl. rewrite lookup_insert_eq. by eexists. }
  split; [done|]. split; [done|].
  unfold resolve.
  destruct (mapM_is_Some_2 (resolve_entry (Heap.arrays st)) (Heap.history st))
    as [h ->]; [|by eexists].
  apply Forall_forall. intros en Hen. destruct (Hin en Hen) as [a Ha].
  unfold resolve_entry; simpl. rewrite Ha. by eexists.
Qed.

Lemma snapshots_not_aliased_witness :
  Heap.squares
    <$> Heap.history (Heap.after [Click 0; Click 4; Jump 1; Click 8])
  = [0; 1; 3] ∧
  NoDup (Heap.squares
           <$> Heap.history (Heap.after [Click 0; Click 4; Jump 1; Click 8])) ∧
  (∀ en, en ∈ Heap.history (Heap.after [Click 0; Click 4; Jump 1; Click 8]) →
         is_Some (Heap.arrays (Heap.after [Click 0; Click 4; Jump 1; Click 8])
                    !! Heap.squares en)) ∧
  is_Some (resolve (Heap.after [Click 0; Click 4; Jump 1; Click 8])).
Proof.
  split; [vm_compute; reflexivity|].
  apply snapshots_not_aliased.
  apply (Heap.reachable_step (Heap.after [Click 0; Click 4; Jump 1])
           (Click 8)); [|vm_compute; reflexivity].
  apply (Heap.reachable_step (Heap.after [Click 0; Click 4]) (Jump 1));
    [|vm_compute; reflexivity].
  apply (Heap.reachable_step (Heap.after [Click 0]) (Click 4));
    [|vm_compute; reflexivity].
  apply (Heap.reachable_step Heap.initial (Click 0));
    [apply Heap.reachable_initial|vm_compute; reflexivity].
Defined.

End store_references.
